(** * fake-news-detector: the heuristic scoring engine

    A shallow embedding of [detect_fake_news_mock] from
    [src/fake_news_detector.py] together with the Python primitives it
    relies on:

    - [str] methods ([lower], [split], [isupper], [in], [len], truth
      value) on texts whose code points lie in U+0000..U+00FF, one
      [ascii] per code point;
    - [float] arithmetic as IEEE 754 binary64 with round-to-nearest-even,
      through the executable specification [SpecFloat] of the Standard
      Library, so that every rounding of the source is accounted for;
    - [int] as [Z], and [int / int] true division, which raises
      [ZeroDivisionError] on a zero divisor, through a small error monad.

    The first half of the file holds the definitions, the second half the
    lemmas: string primitives, a theory of rounding to nearest for
    [SpecFloat], and the properties of the detector. *)

From Stdlib Require Import ZArith List Bool Ascii String Lia.
From Stdlib Require Import Floats.SpecFloat.
Import ListNotations.

(* ------------------------------------------------------------------ *)
(** ** Exceptions *)

Inductive exn : Set := ZeroDivisionError.

Inductive result (A : Type) : Type :=
| Ok (a : A)
| Raise (e : exn).

Arguments Ok {A} a.
Arguments Raise {A} e.

Definition bind {A B : Type} (r : result A) (k : A -> result B) : result B :=
  match r with
  | Ok a => k a
  | Raise e => Raise e
  end.

Notation "x <- r ;; k" := (bind r (fun x => k))
  (at level 61, r at next level, right associativity).

(* ------------------------------------------------------------------ *)
(** ** Python [str] on the Latin-1 range *)

Module PyStr.

Definition str := list ascii.

(** A string literal of the source. *)
Definition s (lit : string) : str := list_ascii_of_string lit.

Definition ord (c : ascii) : N := N_of_ascii c.

Definition between (lo hi : N) (c : ascii) : bool :=
  ((lo <=? ord c) && (ord c <=? hi))%N.

(** [str.isspace] on one character: the code points on which
    [str.split()] cuts. *)
Definition isspace_char (c : ascii) : bool :=
  between 9 13 c || between 28 32 c || between 133 133 c
  || between 160 160 c.

(** Upper-case letters: A-Z and the Latin-1 capitals (U+00D7 is the
    multiplication sign). *)
Definition isupper_char (c : ascii) : bool :=
  between 65 90 c || between 192 214 c || between 216 222 c.

(** Lower-case letters: a-z, the ordinal indicators, the micro sign and
    the Latin-1 small letters (U+00F7 is the division sign). *)
Definition islower_char (c : ascii) : bool :=
  between 97 122 c || between 170 170 c || between 181 181 c
  || between 186 186 c || between 223 246 c || between 248 255 c.

Definition lower_char (c : ascii) : ascii :=
  if isupper_char c then ascii_of_N (ord c + 32) else c.

(** [text.lower()] *)
Definition lower (t : str) : str := map lower_char t.

(** Title-case letters (category Lt, the digraphs U+01C5, U+01C8, ...):
    there is none up to U+00FF. *)
Definition istitle_char (c : ascii) : bool := false.

(** [word.isupper()]: the loop of CPython's [unicode_isupper], which
    gives up at the first lower-case or title-case character and
    otherwise remembers in [cased] whether an upper-case one was seen.
    The loop is the same whatever the characters are; [islower],
    [istitle] and [isupper] classify one character. *)
Fixpoint isupper_loop {C : Type} (islower istitle isupper : C -> bool)
    (cased : bool) (w : list C) : bool :=
  match w with
  | [] => cased
  | ch :: w' =>
      if islower ch || istitle ch then false
      else isupper_loop islower istitle isupper (cased || isupper ch) w'
  end.

Definition isupper_from (cased : bool) (w : str) : bool :=
  isupper_loop islower_char istitle_char isupper_char cased w.

Definition isupper (w : str) : bool := isupper_from false w.

(** [text.split()]: the maximal runs of non-whitespace characters. *)
Fixpoint split (t : str) : list str :=
  match t with
  | [] => []
  | c :: t' =>
      if isspace_char c then split t'
      else match t' with
           | [] => [[c]]
           | c' :: _ =>
               if isspace_char c' then [c] :: split t'
               else match split t' with
                    | tok :: toks => (c :: tok) :: toks
                    | [] => [[c]]
                    end
           end
  end.

Fixpoint startswith (p t : str) : bool :=
  match p, t with
  | [], _ => true
  | _ :: _, [] => false
  | a :: p', b :: t' => Ascii.eqb a b && startswith p' t'
  end.

(** [p in t] *)
Fixpoint contains (p t : str) : bool :=
  startswith p t ||
  match t with
  | [] => false
  | _ :: t' => contains p t'
  end.

(** [len(x)] as a Python int. *)
Definition len {A : Type} (l : list A) : Z := Z.of_nat (List.length l).

(** Truth value of a string: [not text] holds of the empty string only. *)
Definition truthy (t : str) : bool :=
  match t with
  | [] => false
  | _ :: _ => true
  end.

End PyStr.

(* ------------------------------------------------------------------ *)
(** ** Python [float]: IEEE 754 binary64 *)

Module F64.

Definition prec : Z := 53.
Definition emax : Z := 1024.

Definition float := spec_float.

Definition add : float -> float -> float := SFadd prec emax.
Definition sub : float -> float -> float := SFsub prec emax.
Definition mul : float -> float -> float := SFmul prec emax.
Definition ltb : float -> float -> bool := SFltb.
Definition leb : float -> float -> bool := SFleb.

(** The binary64 number nearest to the exact quotient [a / b] of two
    integers, [0 <= a], [0 < b]. *)
Definition nearest_quotient (a b : Z) : float :=
  match a, b with
  | Zpos pa, Zpos pb =>
      SFdiv prec emax (S754_finite false pa 0) (S754_finite false pb 0)
  | _, _ => S754_zero false
  end.

(** A decimal literal [digits * 10^-scale] of the source, which Python
    reads as the nearest binary64 number. *)
Definition decimal (digits : Z) (scale : nat) : float :=
  nearest_quotient digits (10 ^ Z.of_nat scale).

(** [float(n)], the implicit conversion in [n * 0.08]. *)
Definition of_int (n : Z) : float := binary_normalize prec emax n 0 false.

(** [a / b] on non-negative ints. *)
Definition int_truediv (a b : Z) : result float :=
  if (b =? 0)%Z then Raise ZeroDivisionError
  else Ok (nearest_quotient a b).

(** [max(a, b)] and [min(a, b)] keep their first argument unless the
    second one is strictly better. *)
Definition max (a b : float) : float := if ltb a b then b else a.
Definition min (a b : float) : float := if ltb b a then b else a.

End F64.

Declare Scope f64_scope.
Delimit Scope f64_scope with f64.
Notation "x + y" := (F64.add x y) : f64_scope.
Notation "x - y" := (F64.sub x y) : f64_scope.
Notation "x * y" := (F64.mul x y) : f64_scope.
Notation "x <? y" := (F64.ltb x y) : f64_scope.
Notation "x <=? y" := (F64.leb x y) : f64_scope.

(* ------------------------------------------------------------------ *)
(** ** The detector *)

Import PyStr.

Record LinkRef : Set := { title : str; url : str }.

Definition sensational_words : list str :=
  [ s "shocking"; s "bombshell"; s "must-see"; s "disaster";
    s "urgent alert"; s "massive cover-up"; s "secretly";
    s "experts agree"; s "share this immediately"; s "reveals all";
    s "exposed"; s "scandal"; s "breaking now"; s "lie"; s "fraud" ].

Definition mock_links : list LinkRef :=
  [ {| title := s "Fact-Check: Separating Science from Misinformation (Science Journal)";
       url := s "https://trustedscience.org/fact-check" |};
    {| title := s "Official Statement on Economic Outlook (Federal Reserve)";
       url := s "https://federalreserve.gov/latest-reports" |};
    {| title := s "Understanding Clickbait Language: A Guide to Media Literacy";
       url := s "https://medialiteracy.org/clickbait-guide" |} ].

(** [sum(1 for x in xs if keep(x))] *)
Definition sum_ones {A : Type} (keep : A -> bool) (xs : list A) : Z :=
  fold_left Z.add (map (fun _ => 1%Z) (filter keep xs)) 0%Z.

Definition sensational_count (text : str) : Z :=
  sum_ones (fun word => contains word (lower text)) sensational_words.

Definition all_caps_words (text : str) : Z :=
  sum_ones (fun word => isupper word && (len word >? 2)%Z) (split text).

Definition word_count (text : str) : Z := len (split text).

(** [caps_ratio = all_caps_words / word_count] *)
Definition caps_ratio (text : str) : result F64.float :=
  F64.int_truediv (all_caps_words text) (word_count text).

(** The returned triple [(prediction, prob_real, corrective_links)];
    [prediction] is 1 for real news and 0 for fake news. *)
Definition verdict : Type := Z * F64.float * list LinkRef.

Definition detect_fake_news_mock (text : str) : result verdict :=
  if negb (truthy text) then Ok (0%Z, F64.decimal 5 1, [])
  else
    let prob_real := F64.decimal 5 1 in
    let prob_real :=
      (prob_real - F64.of_int (sensational_count text) * F64.decimal 8 2)%f64 in
    prob_real <-
      (if (word_count text >? 0)%Z then
         caps_ratio <- caps_ratio text ;;
         Ok (prob_real - caps_ratio * F64.decimal 3 1)%f64
       else Ok prob_real) ;;
    let prob_real :=
      if (word_count text <? 100)%Z then (prob_real - F64.decimal 15 2)%f64
      else if (word_count text >? 300)%Z then (prob_real + F64.decimal 10 2)%f64
      else prob_real in
    let prob_real :=
      F64.max (F64.decimal 5 2) (F64.min (F64.decimal 95 2) prob_real) in
    let prediction := if (F64.decimal 5 1 <=? prob_real)%f64 then 1%Z else 0%Z in
    let corrective_links := [] in
    let corrective_links :=
      if (prediction =? 0)%Z then mock_links else corrective_links in
    Ok (prediction, prob_real, corrective_links).

(** The two sample articles of the user interface. *)
Definition fake_example : str := s "URGENT ALERT: Scientists confirm that drinking lemon water at exactly 3:00 AM reverses aging completely. The findings were based on a study of a single mouse, but experts agree this is the MOST SHOCKING discovery of the decade! Share this immediately!".

Definition real_example : str := s "On Thursday, the Federal Reserve announced it would keep its benchmark interest rate target unchanged, holding steady in the range of 5.25% to 5.50%. This decision follows a period of stable inflation data and a tightening labor market, suggesting a cautious but optimistic outlook on economic recovery.".

(** *** The scoring arithmetic, step by step

    The same computation as in [detect_fake_news_mock], cut at the
    places the properties below talk about ([detect_nonempty] proves
    that the two agree). *)

(** [prob_real = 0.5; prob_real -= sensational_count * 0.08] *)
Definition base_prob (n : Z) : F64.float :=
  (F64.decimal 5 1 - F64.of_int n * F64.decimal 8 2)%f64.

(** The three-way length adjustment. *)
Definition length_adjust (wc : Z) (p : F64.float) : F64.float :=
  if (wc <? 100)%Z then (p - F64.decimal 15 2)%f64
  else if (wc >? 300)%Z then (p + F64.decimal 10 2)%f64
  else p.

(** The score before clamping, from the three features. *)
Definition pre_clamp (n : Z) (r : F64.float) (wc : Z) : F64.float :=
  length_adjust wc
    (if (wc >? 0)%Z then (base_prob n - r * F64.decimal 3 1)%f64
     else base_prob n).

(** [max(0.05, min(0.95, prob_real))] *)
Definition clamp (p : F64.float) : F64.float :=
  F64.max (F64.decimal 5 2) (F64.min (F64.decimal 95 2) p).

Definition label_of (p : F64.float) : Z :=
  if (F64.decimal 5 1 <=? p)%f64 then 1%Z else 0%Z.

Definition links_of (prediction : Z) : list LinkRef :=
  if (prediction =? 0)%Z then mock_links else [].

(* ------------------------------------------------------------------ *)
(** ** The specification's vocabulary *)

Definition REAL : Z := 1.
Definition FAKE : Z := 0.

(** [kw] occurs in [text] as a case-insensitive substring: some factor
    of the text equals the keyword once both are lower-cased. *)
Definition occurs_ci (kw text : str) : Prop :=
  exists pre mid suf, text = pre ++ mid ++ suf /\ lower mid = lower kw.

(** A fully upper-case token of more than two characters: it has an
    upper-case letter, no lower-case and no title-case letter, and any
    number of caseless characters (digits, punctuation, symbols,
    ...). *)
Definition caps_token (w : str) : Prop :=
  (exists c, In c w /\ isupper_char c = true)
  /\ (forall c, In c w -> islower_char c = false /\ istitle_char c = false)
  /\ (2 < List.length w)%nat.

Definition is_caps_token (w : str) : bool :=
  existsb isupper_char w
  && forallb (fun c => negb (islower_char c || istitle_char c)) w
  && (2 <? List.length w)%nat.

(** [capsRatio]: the number of such tokens divided by the number of
    tokens, and 0 when there is no token. *)
Definition caps_token_ratio (text : str) : F64.float :=
  if (len (split text) =? 0)%Z then S754_zero false
  else F64.nearest_quotient
         (len (filter is_caps_token (split text))) (len (split text)).

(** The feature as it was first described: a token made entirely of
    upper-case letters, digits and punctuation marks, fully upper-case
    (it has an upper-case letter) and longer than two characters.
    Digits are those of [str.isdigit]; punctuation marks are the ASCII
    ones of [string.punctuation] and those of the categories P* up to
    U+00FF. *)
Definition isdigit_char (c : ascii) : bool :=
  between 48 57 c || between 178 179 c || between 185 185 c.

Definition ispunct_char (c : ascii) : bool :=
  between 33 47 c || between 58 64 c || between 91 96 c || between 123 126 c
  || between 161 161 c || between 167 167 c || between 171 171 c
  || between 182 183 c || between 187 187 c || between 191 191 c.

Definition upper_digit_punct (w : str) : bool :=
  forallb (fun c => isupper_char c || isdigit_char c || ispunct_char c) w.

Definition worded_caps_token (w : str) : bool :=
  upper_digit_punct w && existsb isupper_char w
  && (2 <? List.length w)%nat.

Definition worded_caps_ratio (text : str) : F64.float :=
  if (word_count text =? 0)%Z then S754_zero false
  else F64.nearest_quotient
         (len (filter worded_caps_token (split text))) (word_count text).

(** The ratio handed to the scorer: the quotient, or 0 without words. *)
Definition spec_caps_ratio (text : str) : F64.float :=
  if (word_count text =? 0)%Z then S754_zero false
  else F64.nearest_quotient (all_caps_words text) (word_count text).

(** Clamping to the closed interval [[lo, hi]]. *)
Definition spec_clamp (lo hi p : F64.float) : F64.float :=
  if (p <? lo)%f64 then lo else if (hi <? p)%f64 then hi else p.

(** The score as the specification words it: base 0.5, minus 0.08 per
    keyword, minus 0.30 times the caps ratio, the length adjustment,
    and the clamp. *)
Definition spec_probability (sensationalCount : Z) (capsRatio : F64.float)
    (wordCount : Z) : F64.float :=
  let p := F64.decimal 5 1 in
  let p := (p - F64.decimal 8 2 * F64.of_int sensationalCount)%f64 in
  let p := (p - F64.decimal 30 2 * capsRatio)%f64 in
  let p :=
    if (wordCount <? 100)%Z then (p - F64.decimal 15 2)%f64
    else if (300 <? wordCount)%Z then (p + F64.decimal 10 2)%f64
    else p in
  spec_clamp (F64.decimal 5 2) (F64.decimal 95 2) p.

(* ------------------------------------------------------------------ *)
(** ** Rounding to nearest: the notions used to reason about [SpecFloat] *)

Module IEEE.

(** How [V mod 2^K] compares to half of [2^K]. *)
Definition location_of (V K : Z) : location :=
  if (V mod 2 ^ K =? 0)%Z then loc_Exact
  else loc_Inexact (2 * (V mod 2 ^ K) ?= 2 ^ K)%Z.

(** [V / 2^K] rounded to the nearest integer, ties to even. *)
Definition rne (V K : Z) : Z :=
  round_nearest_even (V / 2 ^ K) (location_of V K).

(** [mrs] is [V] shifted right by [K] bits, with the lost bits
    summarised in the round and sticky flags. *)
Definition shifted (V K : Z) (mrs : shr_record) : Prop :=
  shr_m mrs = (V / 2 ^ K)%Z /\ loc_of_shr_record mrs = location_of V K.

Definition is_nan (x : spec_float) : bool :=
  match x with S754_nan => true | _ => false end.

Definition finite_or_zero (x : spec_float) : bool :=
  match x with
  | S754_zero _ | S754_finite _ _ _ => true
  | _ => false
  end.

Definition is_finite (x : spec_float) : bool :=
  match x with
  | S754_finite _ _ _ => true
  | _ => false
  end.

Section Format.

Variables prec emax : Z.

(** The last step of [binary_round_aux]: renormalise a rounded
    mantissa, then detect underflow to zero and overflow. *)
Definition finish (sx : bool) (N t : Z) : spec_float :=
  let '(mrs, e) := shr_fexp prec emax N t loc_Exact in
  match shr_m mrs with
  | Z0 => S754_zero sx
  | Zpos m =>
      if (e <=? emax - prec)%Z then S754_finite sx m e else S754_infinity sx
  | Zneg _ => S754_nan
  end.

Definition cap : Z := 2 ^ (emax - emin prec emax).

(** The magnitude of a finite number in units of [2^emin]. *)
Definition mag (m : positive) (e : Z) : Z :=
  (Z.pos m * 2 ^ (e - emin prec emax))%Z.

(** The value of a number of the format in units of [2^emin]; the
    infinities sit at [cap], just above every finite number. *)
Definition rank (x : spec_float) : Z :=
  match x with
  | S754_zero _ => 0%Z
  | S754_finite sx m e => cond_Zopp sx (mag m e)
  | S754_infinity sx => cond_Zopp sx cap
  | S754_nan => 0%Z
  end.

(** A number of the format: canonical and not a NaN. *)
Definition good (x : spec_float) : Prop :=
  valid_binary prec emax x = true /\ is_nan x = false.

(** Rounding of the non-negative value [W * 2^L] to the format, as a
    multiple of [2^emin] and saturated at [cap]. *)
Definition round_pos (L W : Z) : Z :=
  Z.min (rne W (fexp prec emax (Zdigits2 W + L) - L)
         * 2 ^ (fexp prec emax (Zdigits2 W + L) - emin prec emax)) cap.

Definition sround (L W : Z) : Z :=
  if (W <? 0)%Z then (- round_pos L (- W))%Z else round_pos L W.

(** The value of a finite number in units of [2^L]. *)
Definition sval (L : Z) (sx : bool) (m : positive) (e : Z) : Z :=
  cond_Zopp sx (Z.pos m * 2 ^ (e - L)).

End Format.

End IEEE.

(* ------------------------------------------------------------------ *)
(** ** Further notions on numbers *)

From Stdlib Require QArith Qabs Qpower.

(** The sign bit of a number; a NaN has none. *)
Definition sign_is (sx : bool) (x : spec_float) : bool :=
  match x with
  | S754_zero s' | S754_infinity s' | S754_finite s' _ _ => Bool.eqb s' sx
  | S754_nan => false
  end.

Section ExactValues.

Import QArith_base.

(** The exact value of a finite number, as a rational: [m * 2^e] with
    its sign. (An infinity or a NaN has none; 0 stands for it.) *)
Definition to_Q (x : F64.float) : Q :=
  match x with
  | S754_finite sx m e => (inject_Z (cond_Zopp sx (Z.pos m)) * 2 ^ e)%Q
  | _ => 0%Q
  end.

End ExactValues.

(** A ratio: a number of the format between 0 and 1. *)
Definition is_ratio (r : F64.float) : bool :=
  valid_binary F64.prec F64.emax r
  && F64.leb (S754_zero false) r && F64.leb r (F64.of_int 1).

(** The last character of a word is not whitespace. *)
Fixpoint ends_nonspace (w : str) : bool :=
  match w with
  | [] => false
  | [c] => negb (isspace_char c)
  | _ :: w' => ends_nonspace w'
  end.

(* ------------------------------------------------------------------ *)
(** ** The pages around the detector

    [display_corrective_links], [display_result] and the analysis block
    of [main_app] render through Streamlit calls. Each call is recorded
    as an event that carries the values interpolated into its markup,
    in the order of the calls; the fixed markup itself is not
    reproduced. *)

From Stdlib Require Import DecimalString.

(** [str(n)] *)
Definition str_of_int (n : Z) : str :=
  list_ascii_of_string (NilZero.string_of_int (Z.to_int n)).

Definition digit (d : Z) : ascii := ascii_of_N (48 + Z.to_N d).

(** The value [m * 2^e] in hundredths, rounded to nearest with ties to
    even. *)
Definition hundredths (m : positive) (e : Z) : Z :=
  if (0 <=? e)%Z then (Z.pos m * 100 * 2 ^ e)%Z
  else IEEE.rne (Z.pos m * 100) (- e).

Definition fixed2 (sx : bool) (N : Z) : str :=
  (if sx then s "-" else []) ++ str_of_int (N / 100) ++ s "."
  ++ [digit (N mod 100 / 10); digit (N mod 10)].

(** [f"{x:.2f}"] *)
Definition format_2f (x : F64.float) : str :=
  match x with
  | S754_nan => s "nan"
  | S754_infinity sx => (if sx then s "-" else []) ++ s "inf"
  | S754_zero sx => fixed2 sx 0
  | S754_finite sx m e => fixed2 sx (hundredths m e)
  end.

Inductive Emoji : Set := CheckMark | CrossMark.

(** The values interpolated into the result card. *)
Record ResultCard : Set := {
  card_color : str;
  card_emoji : Emoji;
  card_label : str;
  card_score_label : str;
  card_score_value : str;
  card_message : str
}.

Inductive event : Set :=
| ErrorBox                                (* st.error(...) *)
| InfoBox                                 (* st.info(...) *)
| ProgressNew (v : Z)                     (* st.progress(0) *)
| ProgressSet (v : Z)                     (* progress_bar.progress(i + 1) *)
| ProgressEmpty                           (* progress_bar.empty() *)
| Card (c : ResultCard)                   (* the result card *)
| Rule                                    (* st.markdown("---") *)
| LinksHeader                             (* the heading of the links *)
| LinksIntro                              (* the paragraph under it *)
| LinksList (items : list (str * str))    (* href and text of each item *)
| Details (words : Z).                    (* the expander, with the word count *)

Definition display_corrective_links (links : list LinkRef) : list event :=
  match links with
  | [] => []
  | _ :: _ =>
      let link_html :=
        fold_left (fun html link => html ++ [(url link, title link)])
          links [] in
      [LinksHeader; LinksIntro; LinksList link_html]
  end.

Definition display_result (prediction : Z) (confidence : F64.float)
    (corrective_links : list LinkRef) : list event :=
  let label :=
    if (prediction =? 1)%Z then s "REAL NEWS" else s "FAKE NEWS" in
  let card :=
    if (prediction =? 1)%Z then
      {| card_color := s "#28a745";
         card_emoji := CheckMark;
         card_label := label;
         card_score_label := s "Confidence Score";
         card_score_value :=
           format_2f (confidence * F64.of_int 100)%f64 ++ s "%";
         card_message := s "The model suggests this article is likely **authentic and factual**. It exhibits characteristics consistent with verified reports." |}
    else
      let fakiness_score :=
        ((F64.of_int 1 - confidence) * F64.of_int 100)%f64 in
      {| card_color := s "#dc3545";
         card_emoji := CrossMark;
         card_label := label;
         card_score_label := s "Fakiness Score";
         card_score_value := format_2f fakiness_score ++ s "%";
         card_message := s "The model suggests this article contains **misinformation or is fabricated**. It shows signs of sensationalism or stylistic inconsistencies." |} in
  [Card card; Rule]
  ++ (if (prediction =? 0)%Z then display_corrective_links corrective_links
      else []).

(** The analysis block of [main_app], reached when no example button
    asked for a rerun: what one run of the page renders below the
    buttons, given the state of the Analyze button and the content of
    the text box. An exception of the detector ends the run; what was
    rendered before it is then not kept. *)
Definition main_app_analysis (detect_button : bool)
    (current_news_text : str) : result (list event) :=
  if detect_button then
    if negb (truthy current_news_text) then Ok [ErrorBox]
    else
      let progress :=
        map (fun i => ProgressSet (i + 1)%Z) (map Z.of_nat (seq 0 100)) in
      v <- detect_fake_news_mock current_news_text ;;
      let '(prediction, confidence, corrective_links) := v in
      Ok ([InfoBox; ProgressNew 0] ++ progress ++ [ProgressEmpty]
          ++ display_result prediction confidence corrective_links
          ++ [Rule; Details (len (split current_news_text))])
  else Ok [].

(* ------------------------------------------------------------------ *)
(** * Facts about the string primitives *)

Section StrFacts.

Lemma startswith_spec (p t : str) :
  startswith p t = true <-> exists suf, t = p ++ suf.
Proof.
  revert t; induction p as [|a p IH]; intros t; simpl.
  - split; [exists t; reflexivity | reflexivity].
  - destruct t as [|b t]; simpl.
    + split; [discriminate | intros [suf H]; discriminate].
    + rewrite andb_true_iff, Ascii.eqb_eq, IH. split.
      * intros [-> [suf ->]]. exists suf. reflexivity.
      * intros [suf H]. injection H as -> ->. split; [reflexivity | eauto].
Qed.

Lemma contains_spec (p t : str) :
  contains p t = true <-> exists pre suf, t = pre ++ p ++ suf.
Proof.
  induction t as [|c t IH]; simpl.
  - rewrite orb_false_r, startswith_spec. split.
    + intros [suf H]. exists [], suf. exact H.
    + intros [pre [suf H]]. destruct pre; simpl in H; [eauto | discriminate].
  - rewrite orb_true_iff, startswith_spec, IH. split.
    + intros [[suf H] | [pre [suf H]]].
      * exists [], suf. exact H.
      * exists (c :: pre), suf. simpl. now rewrite H.
    + intros [pre [suf H]]. destruct pre as [|c' pre]; simpl in H.
      * left. eauto.
      * right. injection H as _ H. eauto.
Qed.

Lemma sum_ones_length {A : Type} (keep : A -> bool) (xs : list A) :
  sum_ones keep xs = len (filter keep xs).
Proof.
  unfold sum_ones, len.
  assert (G : forall (l : list A) (acc : Z),
             fold_left Z.add (map (fun _ => 1%Z) l) acc
             = (acc + Z.of_nat (List.length l))%Z).
  { induction l as [|x l IH]; intros acc; simpl List.length; simpl fold_left.
    - lia.
    - rewrite IH. lia. }
  rewrite G. lia.
Qed.

(** The loop of [isupper], for any set of characters: it answers yes
    exactly when an upper-case character was seen, before or in the
    word, and the word has no lower-case and no title-case
    character. *)
Lemma isupper_loop_spec {C : Type} (lo ti up : C -> bool) (w : list C)
    (cased : bool) :
  isupper_loop lo ti up cased w = true <->
  (cased = true \/ exists c, In c w /\ up c = true)
  /\ (forall c, In c w -> lo c = false /\ ti c = false).
Proof.
  revert cased; induction w as [|ch w IH]; intros cased; simpl.
  - split.
    + intros ->. split; [now left | intros c []].
    + intros [[H | [c [[] _]]] _]. exact H.
  - destruct (lo ch || ti ch) eqn:Hl.
    + split; [discriminate |].
      intros [_ H]. destruct (H ch (or_introl eq_refl)) as [H1 H2].
      rewrite H1, H2 in Hl. discriminate.
    + apply orb_false_iff in Hl.
      rewrite IH, orb_true_iff. split.
      * intros [[[H | H] | [c [Hin Hc]]] Hall].
        -- split; [now left | intros c [<- | Hin]; auto].
        -- split; [right; exists ch; auto | intros c [<- | Hin]; auto].
        -- split; [right; exists c; auto | intros c' [<- | Hin']; auto].
      * intros [[H | [c [[<- | Hin] Hc]]] Hall].
        -- split; [now left; left | auto].
        -- split; [now left; right | auto].
        -- split; [right; exists c; auto | auto].
Qed.

(** With a title-case character, here U+01C5 before [AB], the answer is
    no, although the word has upper-case letters and no lower-case
    one. *)
Example isupper_loop_title :
  isupper_loop (fun c => (97 <=? c) && (c <=? 122))%N
    (fun c => c =? 453)%N
    (fun c => (65 <=? c) && (c <=? 90))%N false [453; 65; 66]%N = false
  /\ isupper_loop (fun c => (97 <=? c) && (c <=? 122))%N
       (fun c => c =? 453)%N
       (fun c => (65 <=? c) && (c <=? 90))%N false [65; 66; 49]%N = true.
Proof. split; reflexivity. Qed.

Lemma isupper_from_spec (w : str) (cased : bool) :
  isupper_from cased w = true <->
  (cased = true \/ exists c, In c w /\ isupper_char c = true)
  /\ (forall c, In c w -> islower_char c = false /\ istitle_char c = false).
Proof. apply isupper_loop_spec. Qed.

(** [isupper] holds exactly of the words with an upper-case letter and
    without a lower-case or title-case one; caseless characters do not
    matter. *)
Lemma isupper_spec (w : str) :
  isupper w = true <->
  (exists c, In c w /\ isupper_char c = true)
  /\ (forall c, In c w -> islower_char c = false /\ istitle_char c = false).
Proof.
  unfold isupper. rewrite isupper_from_spec. split.
  - intros [[H | H] Hall]; [discriminate | auto].
  - intros [H Hall]. auto.
Qed.

Lemma space_not_upper (c : ascii) :
  isspace_char c = true -> isupper_char c = false.
Proof.
  destruct c as [[] [] [] [] [] [] [] []]; vm_compute; congruence.
Qed.

Lemma lower_space (t : str) :
  forallb isspace_char t = true -> lower t = t.
Proof.
  induction t as [|c t IH]; simpl; [reflexivity |].
  rewrite andb_true_iff. intros [Hc Ht].
  unfold lower_char. rewrite (space_not_upper c Hc). now rewrite IH.
Qed.

Lemma split_space (t : str) :
  forallb isspace_char t = true -> split t = [].
Proof.
  induction t as [|c t IH]; simpl; [reflexivity |].
  rewrite andb_true_iff. intros [-> Ht]. auto.
Qed.

(** Every token of [split] is a non-empty run without whitespace. *)
Lemma split_tokens (t : str) :
  Forall (fun tok => tok <> [] /\ forallb isspace_char tok = false
                     /\ existsb isspace_char tok = false) (split t).
Proof.
  induction t as [|c t IH]; simpl; [constructor |].
  destruct (isspace_char c) eqn:Hc; [exact IH |].
  destruct t as [|c' t']; [| destruct (isspace_char c') eqn:Hc'].
  - repeat constructor; simpl; [discriminate | now rewrite Hc | now rewrite Hc].
  - constructor; [| exact IH].
    simpl. rewrite Hc. repeat split; discriminate.
  - destruct (split (c' :: t')) as [|tok toks].
    + repeat constructor; simpl; [discriminate | now rewrite Hc | now rewrite Hc].
    + inversion IH as [|? ? [_ [_ H1]] H2]; subst. constructor; [| exact H2].
      simpl. rewrite Hc, H1. repeat split; discriminate.
Qed.

Lemma split_cons (c : ascii) (t : str) :
  split (c :: t) =
  if isspace_char c then split t
  else match t with
       | [] => [[c]]
       | c' :: _ =>
           if isspace_char c' then [c] :: split t
           else match split t with
                | tok :: toks => (c :: tok) :: toks
                | [] => [[c]]
                end
       end.
Proof. reflexivity. Qed.

(** Splitting loses nothing but the whitespace. *)
Lemma split_concat (t : str) :
  List.concat (split t) = filter (fun c => negb (isspace_char c)) t.
Proof.
  induction t as [|c t IH]; [reflexivity |].
  rewrite split_cons. cbn [filter].
  destruct (isspace_char c) eqn:Hc; cbn [negb]; [exact IH |].
  rewrite <- IH.
  destruct t as [|c' t']; [reflexivity |].
  destruct (isspace_char c') eqn:Hc'; [reflexivity |].
  destruct (split (c' :: t')) as [|tok toks]; reflexivity.
Qed.

End StrFacts.


(* ------------------------------------------------------------------ *)
(** * Rounding to nearest in [SpecFloat] *)

Import IEEE.
Local Open Scope Z_scope.

(** ** Powers of two and bit lengths *)

Section Powers.

Lemma pow2_pos (k : Z) : 0 <= k -> 0 < 2 ^ k.
Proof. intros. apply Z.pow_pos_nonneg; lia. Qed.

Lemma pow2_split (a b : Z) : 0 <= a -> 0 <= b -> 2 ^ (a + b) = 2 ^ a * 2 ^ b.
Proof. intros. apply Z.pow_add_r; assumption. Qed.

Lemma pow2_le (a b : Z) : 0 <= a <= b -> 2 ^ a <= 2 ^ b.
Proof. intros. apply Z.pow_le_mono_r; lia. Qed.

Lemma pow2_lt (a b : Z) : 0 <= a < b -> 2 ^ a < 2 ^ b.
Proof. intros. apply Z.pow_lt_mono_r; lia. Qed.

Lemma pow2_succ (a : Z) : 0 <= a -> 2 ^ (a + 1) = 2 * 2 ^ a.
Proof. intros. rewrite pow2_split by lia. change (2 ^ 1) with 2. lia. Qed.

Lemma pow2_pred (a : Z) : 0 < a -> 2 ^ a = 2 * 2 ^ (a - 1).
Proof.
  intros. rewrite <- (pow2_succ (a - 1)) by lia. f_equal. lia.
Qed.

Lemma digits2_pos_size (p : positive) : digits2_pos p = Pos.size p.
Proof. induction p; simpl; congruence. Qed.

Lemma Zdigits2_log2 (m : Z) : 0 < m -> Zdigits2 m = Z.log2 m + 1.
Proof.
  destruct m as [|p|p]; try lia. intros _. simpl.
  rewrite digits2_pos_size.
  destruct p; simpl; rewrite ?Pos2Z.inj_succ; lia.
Qed.

Lemma Zdigits2_bounds (m : Z) :
  0 < m -> 2 ^ (Zdigits2 m - 1) <= m < 2 ^ Zdigits2 m.
Proof.
  intros H. rewrite Zdigits2_log2 by assumption.
  replace (Z.log2 m + 1 - 1) with (Z.log2 m) by lia.
  apply Z.log2_spec. assumption.
Qed.

Lemma digits2_to_pos (m : Z) :
  0 < m -> Z.pos (digits2_pos (Z.to_pos m)) = Zdigits2 m.
Proof. destruct m; try lia. reflexivity. Qed.

Lemma Zdigits2_pos (m : Z) : 0 < m -> 0 < Zdigits2 m.
Proof.
  intros H. rewrite Zdigits2_log2 by assumption.
  pose proof (Z.log2_nonneg m). lia.
Qed.

Lemma Zdigits2_mono (a b : Z) : 0 < a <= b -> Zdigits2 a <= Zdigits2 b.
Proof.
  intros H. rewrite !Zdigits2_log2 by lia.
  pose proof (Z.log2_le_mono a b). lia.
Qed.

Lemma Zdigits2_shift (m k : Z) :
  0 < m -> 0 <= k -> Zdigits2 (m * 2 ^ k) = Zdigits2 m + k.
Proof.
  intros Hm Hk. pose proof (pow2_pos k Hk).
  rewrite !Zdigits2_log2 by nia.
  rewrite Z.log2_mul_pow2 by lia. lia.
Qed.

Lemma Zdigits2_unique (m d : Z) :
  0 < d -> 2 ^ (d - 1) <= m < 2 ^ d -> Zdigits2 m = d.
Proof.
  intros Hd H. pose proof (pow2_pos (d - 1) ltac:(lia)).
  rewrite Zdigits2_log2 by lia.
  rewrite (Z.log2_unique m (d - 1)); try lia.
  replace (Z.succ (d - 1)) with d by lia. assumption.
Qed.

End Powers.

(** ** Rounding an integer quotient to nearest, ties to even *)

Section Nearest.

Lemma rne_zero_shift (V : Z) : rne V 0 = V.
Proof.
  unfold rne, location_of. change (2 ^ 0) with 1.
  rewrite Z.mod_1_r, Z.div_1_r. reflexivity.
Qed.

Lemma rne_bounds (V K : Z) :
  0 <= K -> V / 2 ^ K <= rne V K <= V / 2 ^ K + 1.
Proof.
  intros HK. unfold rne, location_of, round_nearest_even.
  destruct (V mod 2 ^ K =? 0); [lia |].
  destruct (2 * (V mod 2 ^ K) ?= 2 ^ K); try lia.
  destruct (Z.even (V / 2 ^ K)); lia.
Qed.

Lemma rne_mono (V1 V2 K : Z) :
  0 <= K -> V1 <= V2 -> rne V1 K <= rne V2 K.
Proof.
  intros HK HV. pose proof (pow2_pos K HK) as HP.
  pose proof (Z.div_le_mono V1 V2 (2 ^ K) HP HV) as Hq.
  pose proof (rne_bounds V1 K HK) as B1. pose proof (rne_bounds V2 K HK) as B2.
  destruct (Z.eq_dec (V1 / 2 ^ K) (V2 / 2 ^ K)) as [E | NE]; [| lia].
  pose proof (Z.div_mod V1 (2 ^ K) ltac:(lia)) as D1.
  pose proof (Z.div_mod V2 (2 ^ K) ltac:(lia)) as D2.
  pose proof (Z.mod_pos_bound V1 (2 ^ K) HP) as R1.
  pose proof (Z.mod_pos_bound V2 (2 ^ K) HP) as R2.
  assert (Hr : V1 mod 2 ^ K <= V2 mod 2 ^ K) by (rewrite E in D1; lia).
  unfold rne, location_of, round_nearest_even. rewrite E.
  destruct (Z.eqb_spec (V1 mod 2 ^ K) 0) as [Z1 | Z1];
    destruct (Z.eqb_spec (V2 mod 2 ^ K) 0) as [Z2 | Z2]; try lia;
    repeat match goal with
    | |- context [ (?a ?= ?b) ] => destruct (Z.compare_spec a b)
    | |- context [ Z.even ?a ] => destruct (Z.even a)
    end; lia.
Qed.

Lemma rne_scale (V K j : Z) :
  0 <= K -> 0 <= j -> rne (V * 2 ^ j) (K + j) = rne V K.
Proof.
  intros HK Hj. pose proof (pow2_pos K HK) as HP.
  pose proof (pow2_pos j Hj) as HJ.
  unfold rne, location_of. rewrite pow2_split by assumption.
  rewrite Z.div_mul_cancel_r by lia.
  rewrite Z.mul_mod_distr_r by lia.
  destruct (Z.eqb_spec (V mod 2 ^ K) 0) as [Z1 | Z1].
  - rewrite Z1. reflexivity.
  - destruct (Z.eqb_spec (V mod 2 ^ K * 2 ^ j) 0) as [Z2 | Z2]; [nia |].
    replace (2 * (V mod 2 ^ K * 2 ^ j)) with (2 * (V mod 2 ^ K) * 2 ^ j) by lia.
    rewrite <- (Zmult_compare_compat_r (2 * (V mod 2 ^ K)) (2 ^ K) (2 ^ j)) by lia. reflexivity.
Qed.

Lemma rne_upper (V K p : Z) :
  0 <= K -> 0 <= p -> V < 2 ^ (K + p) -> rne V K <= 2 ^ p.
Proof.
  intros HK Hp HV. pose proof (pow2_pos K HK) as HP.
  pose proof (rne_bounds V K HK) as B.
  rewrite pow2_split in HV by assumption.
  assert (V / 2 ^ K < 2 ^ p) by (apply Z.div_lt_upper_bound; lia).
  lia.
Qed.

Lemma rne_lower (V K p : Z) :
  0 <= K -> 0 <= p -> 2 ^ (K + p) <= V -> 2 ^ p <= rne V K.
Proof.
  intros HK Hp HV. pose proof (pow2_pos K HK) as HP.
  pose proof (rne_bounds V K HK) as B.
  rewrite pow2_split in HV by assumption.
  assert (2 ^ p <= V / 2 ^ K) by (apply Z.div_le_lower_bound; lia).
  lia.
Qed.

Lemma rne_nonneg (V K : Z) : 0 <= K -> 0 <= V -> 0 <= rne V K.
Proof.
  intros HK HV. pose proof (rne_bounds V K HK).
  pose proof (Z.div_pos V (2 ^ K) HV (pow2_pos K HK)). lia.
Qed.

End Nearest.

(** ** The right shift with round and sticky bits computes it *)

Section Shift.

Lemma iter_pos_steps {A : Type} (f : A -> A) (P : Z -> A -> Prop) :
  (forall j x, 0 <= j -> P j x -> P (j + 1) (f x)) ->
  forall n j x, 0 <= j -> P j x -> P (j + Zpos n) (iter_pos f n x).
Proof.
  intros Hstep. induction n as [n IH | n IH |]; intros j x Hj HP; simpl.
  - replace (j + Z.pos n~1) with (j + 1 + Z.pos n + Z.pos n) by lia.
    apply IH; [lia |]. apply IH; [lia |]. apply Hstep; assumption.
  - replace (j + Z.pos n~0) with (j + Z.pos n + Z.pos n) by lia.
    apply IH; [lia |]. apply IH; assumption.
  - apply Hstep; assumption.
Qed.

Lemma shr_1_nonneg (m : Z) (r s : bool) :
  0 <= m ->
  shr_1 (Build_shr_record m r s)
  = Build_shr_record (m / 2) (Z.odd m) (r || s).
Proof.
  intros Hm. rewrite <- Z.div2_div.
  destruct m as [|[p|p|]|p]; try reflexivity; lia.
Qed.

Lemma sticky_of_location (V K : Z) (m : Z) (r s : bool) :
  loc_of_shr_record (Build_shr_record m r s) = location_of V K ->
  r || s = negb (V mod 2 ^ K =? 0).
Proof.
  unfold location_of, loc_of_shr_record.
  destruct (V mod 2 ^ K =? 0), r, s; simpl; congruence.
Qed.

Lemma shr_1_shifted (V K : Z) (mrs : shr_record) :
  0 <= V -> 0 <= K -> shifted V K mrs -> shifted V (K + 1) (shr_1 mrs).
Proof.
  intros HV HK [Hm Hl]. destruct mrs as [m r s]; simpl in Hm.
  pose proof (pow2_pos K HK) as HP.
  assert (Hm0 : 0 <= m) by (subst m; apply Z.div_pos; lia).
  rewrite shr_1_nonneg by assumption.
  rewrite (sticky_of_location V K m r s Hl).
  pose proof (Z.mod_pos_bound V (2 ^ K) HP) as HR.
  pose proof (Z.mod_pos_bound m 2 ltac:(lia)) as HB.
  assert (Hmod : V mod 2 ^ (K + 1) = V mod 2 ^ K + 2 ^ K * (m mod 2)).
  { rewrite pow2_succ by assumption. rewrite (Z.mul_comm 2).
    rewrite Z.rem_mul_r by lia. now rewrite Hm. }
  split; simpl.
  - rewrite pow2_succ by assumption. rewrite (Z.mul_comm 2).
    rewrite <- Z.div_div by lia. now rewrite Hm.
  - unfold location_of. rewrite Hmod, (pow2_succ K HK).
    rewrite <- Z.bit0_odd, Z.bit0_eqb.
    destruct (Z.eqb_spec (m mod 2) 1) as [E1 | E1];
      destruct (Z.eqb_spec (V mod 2 ^ K) 0) as [Z1 | Z1];
      destruct (Z.eqb_spec (V mod 2 ^ K + 2 ^ K * (m mod 2)) 0) as [Z2 | Z2];
      cbn [negb loc_of_shr_record]; try nia;
      destruct (Z.compare_spec (2 * (V mod 2 ^ K + 2 ^ K * (m mod 2)))
                               (2 * 2 ^ K));
      try reflexivity; nia.
Qed.

Lemma shifted_init (V : Z) : shifted V 0 (shr_record_of_loc V loc_Exact).
Proof.
  split; simpl.
  - now rewrite Z.div_1_r.
  - unfold location_of. change (2 ^ 0) with 1. now rewrite Z.mod_1_r.
Qed.

Lemma shr_shifted (V e n : Z) :
  0 <= V ->
  shifted V (Z.max 0 n) (fst (shr (shr_record_of_loc V loc_Exact) e n))
  /\ snd (shr (shr_record_of_loc V loc_Exact) e n) = e + Z.max 0 n.
Proof.
  intros HV. destruct n as [|p|p]; simpl shr; simpl fst; simpl snd.
  - split; [apply shifted_init | simpl; lia].
  - replace (Z.max 0 (Z.pos p)) with (0 + Z.pos p) by lia. split; [| lia].
    apply (iter_pos_steps shr_1 (fun j mrs => shifted V j mrs)); [| lia |].
    + intros j x Hj. apply shr_1_shifted; assumption.
    + apply shifted_init.
  - split; [apply shifted_init | simpl; lia].
Qed.

Lemma shr_1_m_nonneg (mrs : shr_record) :
  0 <= shr_m mrs -> 0 <= shr_m (shr_1 mrs).
Proof.
  destruct mrs as [m r s]. cbn [shr_m]. intros H.
  rewrite shr_1_nonneg by assumption. cbn [shr_m].
  apply Z.div_pos; lia.
Qed.

Lemma shr_m_nonneg (mrs : shr_record) (e n : Z) :
  0 <= shr_m mrs -> 0 <= shr_m (fst (shr mrs e n)).
Proof.
  intros H. destruct n as [|p|p]; cbn [shr fst]; try assumption.
  apply (iter_pos_steps shr_1 (fun _ x => 0 <= shr_m x)
           (fun j x _ => shr_1_m_nonneg x) p 0 mrs (Z.le_refl 0) H).
Qed.

Lemma shr_record_of_loc_m (m : Z) (l : location) :
  shr_m (shr_record_of_loc m l) = m.
Proof. destruct l as [|[]]; reflexivity. Qed.

Lemma round_nearest_even_nonneg (m : Z) (l : location) :
  0 <= m -> 0 <= round_nearest_even m l.
Proof.
  intros H. destruct l as [|[]]; cbn [round_nearest_even]; try lia.
  destruct (Z.even m); lia.
Qed.

End Shift.

(** ** The format with precision [prec] and largest exponent [emax] *)

Section Binary.

Variables prec emax : Z.
Hypothesis Hprec : 0 < prec.
Hypothesis Hemax : prec < emax.

Abbreviation emin := (SpecFloat.emin prec emax).
Abbreviation fexp := (SpecFloat.fexp prec emax).
Abbreviation finish := (IEEE.finish prec emax).
Abbreviation cap := (IEEE.cap prec emax).
Abbreviation mag := (IEEE.mag prec emax).
Abbreviation rank := (IEEE.rank prec emax).
Abbreviation good := (IEEE.good prec emax).
Abbreviation round_pos := (IEEE.round_pos prec emax).
Abbreviation sround := (IEEE.sround prec emax).

Lemma emin_eq : emin = 3 - emax - prec.
Proof. reflexivity. Qed.

Lemma fexp_eq (e : Z) : fexp e = Z.max (e - prec) emin.
Proof. reflexivity. Qed.

Lemma binary_round_aux_finish (sx : bool) (mx ex : Z) (lx : location) :
  binary_round_aux prec emax sx mx ex lx
  = finish sx
      (round_nearest_even
         (shr_m (fst (shr_fexp prec emax mx ex lx)))
         (loc_of_shr_record (fst (shr_fexp prec emax mx ex lx))))
      (snd (shr_fexp prec emax mx ex lx)).
Proof.
  unfold binary_round_aux, IEEE.finish.
  destruct (shr_fexp prec emax mx ex lx) as [mrs' e']. reflexivity.
Qed.

Lemma binary_round_aux_exact (sx : bool) (M e : Z) :
  0 <= M ->
  binary_round_aux prec emax sx M e loc_Exact
  = finish sx (rne M (Z.max 0 (fexp (Zdigits2 M + e) - e)))
      (e + Z.max 0 (fexp (Zdigits2 M + e) - e)).
Proof.
  intros HM. rewrite binary_round_aux_finish. unfold shr_fexp.
  destruct (shr_shifted M e (fexp (Zdigits2 M + e) - e) HM) as [[Hm Hl] He].
  rewrite Hm, Hl, He. reflexivity.
Qed.

Lemma shr_nonpos (mrs : shr_record) (e n : Z) :
  n <= 0 -> shr mrs e n = (mrs, e).
Proof. destruct n; try reflexivity. lia. Qed.

Lemma finish_zero (sx : bool) (t : Z) :
  emin <= t -> finish sx 0 t = S754_zero sx.
Proof.
  intros Ht. unfold IEEE.finish, shr_fexp. rewrite shr_nonpos; [reflexivity |].
  simpl Zdigits2. rewrite fexp_eq. lia.
Qed.

Lemma finish_small (sx : bool) (N t : Z) :
  emin <= t -> 0 < N < 2 ^ prec ->
  finish sx N t =
  if t <=? emax - prec then S754_finite sx (Z.to_pos N) t
  else S754_infinity sx.
Proof.
  intros Ht HN. unfold IEEE.finish, shr_fexp. rewrite shr_nonpos.
  - destruct N as [|n|n]; try lia. reflexivity.
  - pose proof (Zdigits2_bounds N ltac:(lia)) as HD.
    assert (Zdigits2 N <= prec).
    { destruct (Z_le_gt_dec (Zdigits2 N) prec) as [|G]; [assumption |].
      pose proof (pow2_le prec (Zdigits2 N - 1) ltac:(lia)). lia. }
    rewrite fexp_eq. lia.
Qed.

Lemma finish_carry (sx : bool) (t : Z) :
  emin <= t ->
  finish sx (2 ^ prec) t =
  if t + 1 <=? emax - prec
  then S754_finite sx (Z.to_pos (2 ^ (prec - 1))) (t + 1)
  else S754_infinity sx.
Proof.
  intros Ht. unfold IEEE.finish, shr_fexp.
  pose proof (pow2_pos prec ltac:(lia)) as HP.
  assert (HD : Zdigits2 (2 ^ prec) = prec + 1).
  { apply Zdigits2_unique; [lia |].
    replace (prec + 1 - 1) with prec by lia. split; [lia |].
    apply pow2_lt. lia. }
  rewrite HD, fexp_eq.
  replace (Z.max (prec + 1 + t - prec) emin - t) with 1 by lia.
  destruct (shr_shifted (2 ^ prec) t 1 ltac:(lia)) as [[Hm _] He].
  change (Z.max 0 1) with 1 in *.
  destruct (shr (shr_record_of_loc (2 ^ prec) loc_Exact) t 1) as [mrs e].
  simpl in Hm, He. rewrite Hm, He. change (2 ^ 1) with 2.
  rewrite (pow2_pred prec Hprec), (Z.mul_comm 2).
  rewrite Z.div_mul by lia.
  pose proof (pow2_pos (prec - 1) ltac:(lia)).
  destruct (2 ^ (prec - 1)) as [|q|q]; try lia. reflexivity.
Qed.

Lemma emin_lt_emax : emin < emax - prec.
Proof. rewrite emin_eq. lia. Qed.

Lemma finish_rank (sx : bool) (N t : Z) :
  emin <= t -> 0 <= N <= 2 ^ prec -> (emin < t -> 2 ^ (prec - 1) <= N) ->
  good (finish sx N t)
  /\ rank (finish sx N t) = cond_Zopp sx (Z.min (N * 2 ^ (t - emin)) cap).
Proof.
  intros Ht HN Hnorm. pose proof emin_lt_emax as HE.
  pose proof (pow2_pos prec ltac:(lia)) as HP.
  pose proof (pow2_pos (prec - 1) ltac:(lia)) as HP1.
  pose proof (pow2_pos (t - emin) ltac:(lia)) as HT.
  pose proof (pow2_pred prec Hprec) as Hpp.
  unfold IEEE.cap.
  destruct (Z.eq_dec N 0) as [-> | N0];
    [| destruct (Z.eq_dec N (2 ^ prec)) as [-> | NP]].
  - rewrite finish_zero by assumption. split; [split; reflexivity |].
    simpl. pose proof (pow2_pos (emax - emin) ltac:(lia)).
    rewrite Z.min_l by lia. now destruct sx.
  - rewrite finish_carry by assumption.
    destruct (Z.leb_spec (t + 1) (emax - prec)) as [Hle | Hgt].
    + split; [split; [| reflexivity] |].
      * simpl. unfold bounded, canonical_mantissa.
        rewrite digits2_to_pos by lia.
        rewrite (Zdigits2_unique (2 ^ (prec - 1)) prec) by lia.
        rewrite fexp_eq. apply andb_true_intro. split; [lia | lia].
      * cbn [IEEE.rank]; unfold IEEE.mag. rewrite Z2Pos.id by lia.
        replace (t + 1 - emin) with ((t - emin) + 1) by lia.
        rewrite (pow2_succ (t - emin)) by lia.
        pose proof (pow2_lt (prec + (t - emin)) (emax - emin) ltac:(lia)) as HL.
        rewrite pow2_split in HL by lia.
        rewrite Z.min_l by nia. f_equal. nia.
    + split; [split; reflexivity |]. cbn [IEEE.rank]; unfold IEEE.mag.
      pose proof (pow2_le (emax - emin) (prec + (t - emin)) ltac:(lia)) as HL.
      rewrite pow2_split in HL by lia.
      rewrite Z.min_r by lia. reflexivity.
  - rewrite finish_small by lia.
    pose proof (Zdigits2_bounds N ltac:(lia)) as HD.
    destruct (Z.leb_spec t (emax - prec)) as [Hle | Hgt].
    + split; [split; [| reflexivity] |].
      * simpl. unfold bounded, canonical_mantissa.
        rewrite digits2_to_pos by lia. rewrite fexp_eq.
        apply andb_true_intro. split; [| lia].
        assert (Zdigits2 N <= prec).
        { destruct (Z_le_gt_dec (Zdigits2 N) prec) as [|G]; [assumption |].
          pose proof (pow2_le prec (Zdigits2 N - 1) ltac:(lia)). lia. }
        destruct (Z.eq_dec t emin) as [-> | Hne]; [lia |].
        assert (Zdigits2 N = prec).
        { apply Zdigits2_unique; lia. }
        lia.
      * cbn [IEEE.rank]; unfold IEEE.mag. rewrite Z2Pos.id by lia.
        pose proof (pow2_le (prec + (t - emin)) (emax - emin) ltac:(lia)) as HL.
        rewrite pow2_split in HL by lia.
        rewrite Z.min_l by nia. reflexivity.
    + split; [split; reflexivity |]. cbn [IEEE.rank]; unfold IEEE.mag.
      pose proof (pow2_le (emax - emin) ((prec - 1) + (t - emin)) ltac:(lia)) as HL.
      rewrite pow2_split in HL by lia.
      rewrite Z.min_r by nia. reflexivity.
Qed.

(** ** Rounding is monotone *)

Lemma fexp_ge_emin (e : Z) : emin <= fexp e.
Proof. rewrite fexp_eq. lia. Qed.

Lemma fexp_mono (a b : Z) : a <= b -> fexp a <= fexp b.
Proof. rewrite !fexp_eq. lia. Qed.

Lemma cap_pos : 0 < cap.
Proof.
  apply pow2_pos. pose proof (emin_lt_emax). lia.
Qed.

Lemma round_pos_range (L W : Z) :
  L <= emin -> 0 <= W -> 0 <= round_pos L W <= cap.
Proof.
  intros HL HW. unfold IEEE.round_pos. pose proof cap_pos.
  pose proof (fexp_ge_emin (Zdigits2 W + L)) as Ht.
  pose proof (rne_nonneg W (fexp (Zdigits2 W + L) - L) ltac:(lia) HW).
  pose proof (pow2_pos (fexp (Zdigits2 W + L) - emin) ltac:(lia)).
  split; [apply Z.min_glb; nia | apply Z.le_min_r].
Qed.

Lemma round_pos_zero (L : Z) : L <= emin -> round_pos L 0 = 0.
Proof.
  intros HL. unfold IEEE.round_pos. simpl Zdigits2.
  pose proof (fexp_ge_emin (0 + L)) as Ht. pose proof cap_pos.
  assert (E : rne 0 (fexp (0 + L) - L) = 0).
  { unfold rne, location_of. rewrite Z.mod_0_l, Z.div_0_l; [reflexivity | |];
      pose proof (pow2_pos (fexp (0 + L) - L) ltac:(lia)); lia. }
  rewrite E. simpl. lia.
Qed.

(** The rounded mantissa fits in [prec] bits, up to the carry, and
    fills them outside the subnormal range. *)
Lemma rne_fexp_bounds (L W : Z) :
  L <= emin -> 0 < W ->
  0 <= rne W (fexp (Zdigits2 W + L) - L) <= 2 ^ prec
  /\ (emin < fexp (Zdigits2 W + L) ->
      2 ^ (prec - 1) <= rne W (fexp (Zdigits2 W + L) - L)).
Proof.
  intros HL HW. pose proof (fexp_ge_emin (Zdigits2 W + L)) as Ht.
  pose proof (fexp_eq (Zdigits2 W + L)) as Hf.
  pose proof (Zdigits2_bounds W HW) as [HD1 HD2].
  pose proof (Zdigits2_pos W HW) as HD0.
  set (t := fexp (Zdigits2 W + L)) in *.
  repeat split.
  - apply rne_nonneg; lia.
  - apply rne_upper; [lia | lia |].
    eapply Z.lt_le_trans; [exact HD2 |]. apply pow2_le. lia.
  - intros Hn. apply rne_lower; [lia | lia |].
    replace (t - L + (prec - 1)) with (Zdigits2 W - 1) by lia. exact HD1.
Qed.

Lemma round_pos_mono (L W1 W2 : Z) :
  L <= emin -> 0 <= W1 <= W2 -> round_pos L W1 <= round_pos L W2.
Proof.
  intros HL [H1 H12].
  destruct (Z.eq_dec W1 0) as [-> | N1].
  { rewrite round_pos_zero by assumption.
    apply round_pos_range; [assumption | lia]. }
  assert (HW1 : 0 < W1) by lia. assert (HW2 : 0 < W2) by lia.
  destruct (rne_fexp_bounds L W1 HL HW1) as [[A1 B1] C1].
  destruct (rne_fexp_bounds L W2 HL HW2) as [[A2 B2] C2].
  pose proof (fexp_ge_emin (Zdigits2 W1 + L)) as Ht1.
  pose proof (fexp_mono (Zdigits2 W1 + L) (Zdigits2 W2 + L)
                ltac:(pose proof (Zdigits2_mono W1 W2); lia)) as Ht.
  unfold IEEE.round_pos.
  set (t1 := fexp (Zdigits2 W1 + L)) in *.
  set (t2 := fexp (Zdigits2 W2 + L)) in *.
  apply Z.min_le_compat_r.
  destruct (Z.eq_dec t1 t2) as [E | NE].
  - rewrite <- E.
    pose proof (rne_mono W1 W2 (t1 - L) ltac:(lia) H12).
    pose proof (pow2_pos (t1 - emin) ltac:(lia)). nia.
  - specialize (C2 ltac:(lia)).
    pose proof (pow2_pos (t1 - emin) ltac:(lia)) as P1.
    pose proof (pow2_pos (prec - 1) ltac:(lia)) as P2.
    pose proof (pow2_le ((t1 - emin) + 1) (t2 - emin) ltac:(lia)) as P3.
    rewrite pow2_succ in P3 by lia.
    rewrite (pow2_pred prec Hprec) in B1.
    transitivity (2 * 2 ^ (prec - 1) * 2 ^ (t1 - emin)); [nia |].
    transitivity (2 ^ (prec - 1) * 2 ^ (t2 - emin)); nia.
Qed.

Lemma sround_mono (L W1 W2 : Z) :
  L <= emin -> W1 <= W2 -> sround L W1 <= sround L W2.
Proof.
  intros HL H. unfold IEEE.sround.
  destruct (Z.ltb_spec W1 0), (Z.ltb_spec W2 0); try lia.
  - pose proof (round_pos_mono L (- W2) (- W1) HL ltac:(lia)). lia.
  - pose proof (round_pos_range L (- W1) HL ltac:(lia)).
    pose proof (round_pos_range L W2 HL ltac:(lia)). lia.
  - apply round_pos_mono; [assumption | lia].
Qed.

Lemma sround_range (L W : Z) : L <= emin -> - cap <= sround L W <= cap.
Proof.
  intros HL. unfold IEEE.sround. destruct (Z.ltb_spec W 0).
  - pose proof (round_pos_range L (- W) HL ltac:(lia)). lia.
  - pose proof (round_pos_range L W HL ltac:(lia)). lia.
Qed.

(** ** [binary_round] and [binary_normalize] *)

Lemma iter_xO (m d : positive) :
  Z.pos (Pos.iter xO m d) = Z.pos m * 2 ^ Z.pos d.
Proof.
  rewrite (Pos.iter_swap_gen _ _ Z.pos xO (Z.mul 2)) by reflexivity.
  rewrite <- Z.shiftl_mul_pow2 by lia. reflexivity.
Qed.

Lemma shl_align_spec (mx : positive) (ex ex' : Z) :
  Z.pos (fst (shl_align mx ex ex')) = Z.pos mx * 2 ^ (ex - Z.min ex ex')
  /\ snd (shl_align mx ex ex') = Z.min ex ex'.
Proof.
  unfold shl_align. destruct (ex' - ex) as [|d|d] eqn:E; simpl fst; simpl snd.
  - replace (Z.min ex ex') with ex by lia. rewrite Z.sub_diag.
    change (2 ^ 0) with 1. lia.
  - replace (Z.min ex ex') with ex by lia. rewrite Z.sub_diag.
    change (2 ^ 0) with 1. lia.
  - replace (Z.min ex ex') with ex' by lia. rewrite iter_xO.
    split; [| reflexivity]. do 2 f_equal. lia.
Qed.

Lemma binary_round_eq (sx : bool) (m : positive) (e L : Z) :
  L <= e -> L <= emin ->
  binary_round prec emax sx m e
  = finish sx
      (rne (Z.pos m * 2 ^ (e - L))
           (fexp (Zdigits2 (Z.pos m * 2 ^ (e - L)) + L) - L))
      (fexp (Zdigits2 (Z.pos m * 2 ^ (e - L)) + L)).
Proof.
  intros HLe HL. unfold binary_round.
  rewrite Zdigits2_shift by lia.
  replace (Zdigits2 (Z.pos m) + (e - L) + L) with (Zdigits2 (Z.pos m) + e) by lia.
  change (Z.pos (digits2_pos m)) with (Zdigits2 (Z.pos m)).
  set (t := fexp (Zdigits2 (Z.pos m) + e)).
  pose proof (fexp_ge_emin (Zdigits2 (Z.pos m) + e)) as Ht. fold t in Ht.
  destruct (shl_align_spec m e t) as [Hm He].
  destruct (shl_align m e t) as [mz ez]. cbn [fst snd] in Hm, He.
  rewrite binary_round_aux_exact by lia.
  assert (HD : Zdigits2 (Z.pos mz) + ez = Zdigits2 (Z.pos m) + e).
  { rewrite Hm, Zdigits2_shift by lia. lia. }
  rewrite HD. fold t.
  destruct (Z_le_gt_dec e t) as [Hle | Hgt].
  - assert (Hmin : Z.min e t = e) by lia. rewrite Hmin in *. subst ez.
    rewrite Z.sub_diag in Hm. change (2 ^ 0) with 1 in Hm.
    rewrite Z.mul_1_r in Hm. rewrite Hm.
    replace (Z.max 0 (t - e)) with (t - e) by lia.
    replace (e + (t - e)) with t by lia.
    replace (t - L) with ((t - e) + (e - L)) by lia.
    rewrite rne_scale by lia. reflexivity.
  - assert (Hmin : Z.min e t = t) by lia. rewrite Hmin in *. subst ez.
    replace (Z.max 0 (t - t)) with 0 by lia.
    rewrite rne_zero_shift, Z.add_0_r, Hm.
    replace (Z.pos m * 2 ^ (e - L)) with (Z.pos m * 2 ^ (e - t) * 2 ^ (t - L)).
    + rewrite <- (rne_zero_shift (Z.pos m * 2 ^ (e - t))) at 1.
      rewrite <- (rne_scale (Z.pos m * 2 ^ (e - t)) 0 (t - L)) by lia.
      reflexivity.
    + rewrite <- Z.mul_assoc, <- pow2_split by lia. do 2 f_equal. lia.
Qed.

Lemma binary_round_rank (sx : bool) (m : positive) (e L : Z) :
  L <= e -> L <= emin ->
  good (binary_round prec emax sx m e)
  /\ rank (binary_round prec emax sx m e)
     = cond_Zopp sx (round_pos L (Z.pos m * 2 ^ (e - L))).
Proof.
  intros HLe HL. rewrite (binary_round_eq sx m e L HLe HL).
  pose proof (pow2_pos (e - L) ltac:(lia)) as HP.
  assert (HW : 0 < Z.pos m * 2 ^ (e - L)) by nia.
  destruct (rne_fexp_bounds L _ HL HW) as [HB HN].
  apply (finish_rank); try assumption.
  apply fexp_ge_emin.
Qed.

Lemma binary_normalize_rank (V e L : Z) (szero : bool) :
  L <= e -> L <= emin ->
  good (binary_normalize prec emax V e szero)
  /\ rank (binary_normalize prec emax V e szero)
     = sround L (V * 2 ^ (e - L)).
Proof.
  intros HLe HL. pose proof (pow2_pos (e - L) ltac:(lia)) as HP.
  unfold IEEE.sround. destruct V as [|m|m]; simpl binary_normalize.
  - split; [split; reflexivity |]. rewrite Z.mul_0_l. simpl.
    now rewrite round_pos_zero.
  - destruct (Z.ltb_spec (Z.pos m * 2 ^ (e - L)) 0); [nia |].
    apply (binary_round_rank false m e L HLe HL).
  - destruct (Z.ltb_spec (Z.neg m * 2 ^ (e - L)) 0); [| nia].
    replace (- (Z.neg m * 2 ^ (e - L))) with (Z.pos m * 2 ^ (e - L)) by lia.
    apply (binary_round_rank true m e L HLe HL).
Qed.

(** ** The order of the format is the order of the ranks *)

Lemma bounded_facts (m : positive) (e : Z) :
  bounded prec emax m e = true ->
  emin <= e <= emax - prec
  /\ Zdigits2 (Z.pos m) <= prec
  /\ (emin < e -> Zdigits2 (Z.pos m) = prec).
Proof.
  unfold bounded, canonical_mantissa. rewrite andb_true_iff.
  change (Z.pos (digits2_pos m)) with (Zdigits2 (Z.pos m)).
  rewrite fexp_eq. intros [H1 H2].
  apply Z.eqb_eq in H1. apply Z.leb_le in H2. lia.
Qed.

Lemma mag_range (m : positive) (e : Z) :
  bounded prec emax m e = true -> 0 < mag m e < cap.
Proof.
  intros H. destruct (bounded_facts m e H) as [He [Hd _]].
  pose proof (Zdigits2_bounds (Z.pos m) ltac:(lia)) as [_ HD].
  pose proof (pow2_pos (e - emin) ltac:(lia)) as HP.
  pose proof (pow2_le (Zdigits2 (Z.pos m)) prec
                ltac:(pose proof (Zdigits2_pos (Z.pos m)); lia)) as HQ.
  pose proof (pow2_le (prec + (e - emin)) (emax - emin) ltac:(lia)) as HR.
  rewrite pow2_split in HR by lia.
  unfold IEEE.mag, IEEE.cap. split; [nia |].
  eapply Z.lt_le_trans; [| exact HR]. nia.
Qed.

Lemma mag_lt (m1 m2 : positive) (e1 e2 : Z) :
  bounded prec emax m1 e1 = true -> bounded prec emax m2 e2 = true ->
  e1 < e2 -> mag m1 e1 < mag m2 e2.
Proof.
  intros H1 H2 He.
  destruct (bounded_facts m1 e1 H1) as [He1 [Hd1 _]].
  destruct (bounded_facts m2 e2 H2) as [He2 [_ Hd2]].
  specialize (Hd2 ltac:(lia)).
  pose proof (Zdigits2_bounds (Z.pos m1) ltac:(lia)) as [_ HD1].
  pose proof (Zdigits2_bounds (Z.pos m2) ltac:(lia)) as [HD2 _].
  rewrite Hd2 in HD2.
  pose proof (pow2_le (Zdigits2 (Z.pos m1)) prec
                ltac:(pose proof (Zdigits2_pos (Z.pos m1)); lia)) as HQ.
  rewrite (pow2_pred prec Hprec) in HQ.
  pose proof (pow2_pos (e1 - emin) ltac:(lia)) as P1.
  pose proof (pow2_pos (prec - 1) ltac:(lia)) as P2.
  pose proof (pow2_le ((e1 - emin) + 1) (e2 - emin) ltac:(lia)) as P3.
  rewrite pow2_succ in P3 by lia.
  unfold IEEE.mag.
  apply Z.lt_le_trans with (2 * 2 ^ (prec - 1) * 2 ^ (e1 - emin)); [nia |].
  transitivity (2 ^ (prec - 1) * 2 ^ (e2 - emin)); nia.
Qed.

Lemma mag_compare (m1 m2 : positive) (e1 e2 : Z) :
  bounded prec emax m1 e1 = true -> bounded prec emax m2 e2 = true ->
  (mag m1 e1 ?= mag m2 e2)
  = match e1 ?= e2 with
    | Lt => Lt
    | Gt => Gt
    | Eq => Pos.compare_cont Eq m1 m2
    end.
Proof.
  intros H1 H2. destruct (Z.compare_spec e1 e2) as [E | L | G].
  - subst e2. unfold IEEE.mag.
    destruct (bounded_facts m1 e1 H1) as [He1 _].
    pose proof (pow2_pos (e1 - emin) ltac:(lia)).
    rewrite <- Zmult_compare_compat_r by lia.
    reflexivity.
  - apply Z.compare_lt_iff. apply mag_lt; assumption.
  - apply Z.compare_gt_iff. apply mag_lt; assumption.
Qed.

Lemma rank_finite (sx : bool) (m : positive) (e : Z) :
  rank (S754_finite sx m e) = cond_Zopp sx (mag m e).
Proof. reflexivity. Qed.

(** On valid numbers, [SFcompare] is the order of the ranks. *)
Lemma SFcompare_rank (x y : spec_float) :
  good x -> good y -> SFcompare x y = Some (rank x ?= rank y).
Proof.
  intros [Vx Nx] [Vy Ny]. pose proof (cap_pos) as HC.
  destruct x as [sx | sx | | sx mx ex]; try discriminate;
    destruct y as [sy | sy | | sy my ey]; try discriminate;
    simpl in Vx, Vy;
    try (pose proof (mag_range mx ex Vx) as Rx);
    try (pose proof (mag_range my ey Vy) as Ry);
    rewrite ?rank_finite; cbn [SFcompare IEEE.rank]; f_equal; symmetry;
    try solve [ repeat match goal with b : bool |- _ => destruct b end;
                cbn [cond_Zopp];
                first [ apply Z.compare_lt_iff; lia
                      | apply Z.compare_gt_iff; lia
                      | apply Z.compare_eq_iff; lia ] ].
  destruct sx, sy; cbn [cond_Zopp].
  - rewrite Z.compare_opp, (mag_compare my mx ey ex Vy Vx).
    rewrite (Z.compare_antisym ey ex).
    rewrite (Pos.compare_cont_antisym mx my Eq).
    destruct (ey ?= ex); reflexivity.
  - apply Z.compare_lt_iff; lia.
  - apply Z.compare_gt_iff; lia.
  - apply mag_compare; assumption.
Qed.

Lemma SFltb_rank (x y : spec_float) :
  good x -> good y -> SFltb x y = (rank x <? rank y).
Proof.
  intros Hx Hy. unfold SFltb, Z.ltb. rewrite (SFcompare_rank x y Hx Hy).
  reflexivity.
Qed.

Lemma SFleb_rank (x y : spec_float) :
  good x -> good y -> SFleb x y = (rank x <=? rank y).
Proof.
  intros Hx Hy. unfold SFleb, Z.leb. rewrite (SFcompare_rank x y Hx Hy).
  destruct (rank x ?= rank y); reflexivity.
Qed.

(** ** Addition and subtraction round the exact result *)

Lemma cond_Zopp_mul (sx : bool) (a b : Z) :
  cond_Zopp sx a * b = cond_Zopp sx (a * b).
Proof. destruct sx; simpl; lia. Qed.

Lemma aligned_sval (L : Z) (sx : bool) (m : positive) (e ez : Z) :
  L <= ez -> ez <= e ->
  cond_Zopp sx (Z.pos (fst (shl_align m e ez))) * 2 ^ (ez - L)
  = sval L sx m e.
Proof.
  intros H1 H2. destruct (shl_align_spec m e ez) as [Hm _].
  rewrite Hm, cond_Zopp_mul. unfold IEEE.sval. f_equal.
  replace (Z.min e ez) with ez by lia.
  rewrite <- Z.mul_assoc, <- pow2_split by lia. do 2 f_equal. lia.
Qed.

Lemma SFsub_finite_rank (L : Z) (sx sy : bool) (mx my : positive) (ex ey : Z) :
  L <= ex -> L <= ey -> L <= emin ->
  good (SFsub prec emax (S754_finite sx mx ex) (S754_finite sy my ey))
  /\ rank (SFsub prec emax (S754_finite sx mx ex) (S754_finite sy my ey))
     = sround L (sval L sx mx ex - sval L sy my ey).
Proof.
  intros Hx Hy HL. cbn [SFsub].
  rewrite <- (aligned_sval L sx mx ex (Z.min ex ey)) by lia.
  rewrite <- (aligned_sval L sy my ey (Z.min ex ey)) by lia.
  rewrite <- Z.mul_sub_distr_r.
  apply (binary_normalize_rank); lia.
Qed.

Lemma SFadd_finite_rank (L : Z) (sx sy : bool) (mx my : positive) (ex ey : Z) :
  L <= ex -> L <= ey -> L <= emin ->
  good (SFadd prec emax (S754_finite sx mx ex) (S754_finite sy my ey))
  /\ rank (SFadd prec emax (S754_finite sx mx ex) (S754_finite sy my ey))
     = sround L (sval L sx mx ex + sval L sy my ey).
Proof.
  intros Hx Hy HL. cbn [SFadd].
  rewrite <- (aligned_sval L sx mx ex (Z.min ex ey)) by lia.
  rewrite <- (aligned_sval L sy my ey (Z.min ex ey)) by lia.
  rewrite <- Z.mul_add_distr_r.
  apply (binary_normalize_rank); lia.
Qed.

Lemma sval_rank (L : Z) (sx : bool) (m : positive) (e : Z) :
  L <= emin -> emin <= e ->
  sval L sx m e = rank (S754_finite sx m e) * 2 ^ (emin - L).
Proof.
  intros HL He. unfold IEEE.sval. cbn [IEEE.rank]; unfold IEEE.mag.
  rewrite cond_Zopp_mul. f_equal.
  rewrite <- Z.mul_assoc, <- pow2_split by lia. do 2 f_equal. lia.
Qed.

(** Rounding leaves the numbers of the format alone. *)
Lemma round_pos_fixed (m : positive) (e : Z) :
  bounded prec emax m e = true ->
  round_pos emin (mag m e) = mag m e.
Proof.
  intros H. pose proof (mag_range m e H) as HR.
  destruct (bounded_facts m e H) as [He _].
  unfold IEEE.round_pos, IEEE.mag in *.
  rewrite Zdigits2_shift by lia.
  replace (Zdigits2 (Z.pos m) + (e - emin) + emin)
    with (Z.pos (digits2_pos m) + e) by (simpl Zdigits2; lia).
  unfold bounded, canonical_mantissa in H. apply andb_true_iff in H.
  destruct H as [H _]. apply Z.eqb_eq in H. rewrite H.
  replace (e - emin) with (0 + (e - emin)) at 2 by lia.
  rewrite rne_scale by lia. rewrite rne_zero_shift. lia.
Qed.

Lemma sround_fixed (sx : bool) (m : positive) (e : Z) :
  bounded prec emax m e = true ->
  sround emin (rank (S754_finite sx m e)) = rank (S754_finite sx m e).
Proof.
  intros H. pose proof (mag_range m e H) as HR.
  rewrite rank_finite. unfold IEEE.sround. destruct sx; cbn [cond_Zopp].
  - destruct (Z.ltb_spec (- mag m e) 0); [| lia].
    rewrite Z.opp_involutive, round_pos_fixed by assumption. reflexivity.
  - destruct (Z.ltb_spec (mag m e) 0); [lia |].
    apply round_pos_fixed; assumption.
Qed.

Lemma good_finite_exp (sx : bool) (m : positive) (e : Z) :
  good (S754_finite sx m e) -> emin <= e.
Proof.
  intros [V _]. apply bounded_facts in V. lia.
Qed.

Lemma SFadd_rank (y a : spec_float) :
  good y -> finite_or_zero y = true -> good a -> is_finite a = true ->
  good (SFadd prec emax y a)
  /\ rank (SFadd prec emax y a) = sround emin (rank y + rank a).
Proof.
  intros Gy Fy Ga Fa.
  destruct a as [| | | sa ma ea]; try discriminate.
  destruct y as [sy | | | sy my ey]; try discriminate.
  - cbn [SFadd]. split; [exact Ga |]. cbn [IEEE.rank]; unfold IEEE.mag. rewrite Z.add_0_l.
    symmetry. apply sround_fixed. apply Ga.
  - pose proof (good_finite_exp _ _ _ Gy). pose proof (good_finite_exp _ _ _ Ga).
    destruct (SFadd_finite_rank emin sy sa my ma ey ea) as [G R]; try lia.
    split; [exact G |]. rewrite R. reflexivity.
Qed.

Lemma SFsub_rank (y a : spec_float) :
  good y -> finite_or_zero y = true -> good a -> is_finite a = true ->
  good (SFsub prec emax y a)
  /\ rank (SFsub prec emax y a) = sround emin (rank y - rank a).
Proof.
  intros Gy Fy Ga Fa.
  destruct a as [| | | sa ma ea]; try discriminate.
  destruct y as [sy | | | sy my ey]; try discriminate.
  - cbn [SFsub]. split; [exact Ga |].
    change (rank (S754_zero sy)) with 0. rewrite Z.sub_0_l.
    replace (- rank (S754_finite sa ma ea))
      with (rank (S754_finite (negb sa) ma ea))
      by (cbn [IEEE.rank]; unfold IEEE.mag; destruct sa; cbn [negb cond_Zopp]; lia).
    symmetry. apply sround_fixed. apply Ga.
  - pose proof (good_finite_exp _ _ _ Gy). pose proof (good_finite_exp _ _ _ Ga).
    destruct (SFsub_finite_rank emin sy sa my ma ey ea) as [G R]; try lia.
    split; [exact G |]. rewrite R. reflexivity.
Qed.

Lemma good_rank_range (x : spec_float) : good x -> - cap <= rank x <= cap.
Proof.
  intros [V N]. pose proof (cap_pos).
  destruct x as [sx | sx | | sx m e]; try discriminate; cbn [IEEE.rank]; unfold IEEE.mag.
  - lia.
  - destruct sx; cbn [cond_Zopp]; lia.
  - pose proof (mag_range m e V).
    unfold IEEE.mag in *. destruct sx; cbn [cond_Zopp]; lia.
Qed.

Lemma rank_lt_cap (x : spec_float) :
  good x -> finite_or_zero x = true -> - cap < rank x < cap.
Proof.
  intros [V N] F. pose proof (cap_pos).
  destruct x as [sx | sx | | sx m e]; try discriminate; cbn [IEEE.rank]; unfold IEEE.mag.
  - lia.
  - pose proof (mag_range m e V).
    unfold IEEE.mag in *. destruct sx; cbn [cond_Zopp]; lia.
Qed.

(** Adding a fixed finite number preserves the order. *)
Lemma SFadd_mono (a y1 y2 : spec_float) :
  good a -> is_finite a = true -> good y1 -> good y2 ->
  rank y1 <= rank y2 ->
  good (SFadd prec emax y1 a) /\ good (SFadd prec emax y2 a)
  /\ rank (SFadd prec emax y1 a) <= rank (SFadd prec emax y2 a).
Proof.
  intros Ga Fa G1 G2 H.
  assert (Hinf : forall sy, SFadd prec emax (S754_infinity sy) a
                            = S754_infinity sy).
  { intros sy. destruct a; try discriminate. reflexivity. }
  assert (Hfz : forall y, good y -> finite_or_zero y = true ->
                          good (SFadd prec emax y a)
                          /\ - cap <= rank (SFadd prec emax y a) <= cap).
  { intros y Gy Fy. destruct (SFadd_rank y a Gy Fy Ga Fa) as [G R].
    split; [exact G |]. rewrite R.
    apply (sround_range). lia. }
  pose proof (cap_pos) as HC.
  destruct (finite_or_zero y1) eqn:F1; destruct (finite_or_zero y2) eqn:F2.
  - destruct (SFadd_rank y1 a G1 F1 Ga Fa) as [A1 R1].
    destruct (SFadd_rank y2 a G2 F2 Ga Fa) as [A2 R2].
    repeat split; try apply A1; try apply A2. rewrite R1, R2.
    apply (sround_mono); lia.
  - pose proof (rank_lt_cap y1 G1 F1) as B1. destruct (Hfz y1 G1 F1) as [A1 R1].
    destruct y2 as [| s2 | |]; try discriminate; [| destruct G2; discriminate].
    rewrite Hinf. destruct s2; cbn [IEEE.rank cond_Zopp] in H |- *; [lia |].
    repeat split; try apply A1; try reflexivity. lia.
  - pose proof (rank_lt_cap y2 G2 F2) as B2. destruct (Hfz y2 G2 F2) as [A2 R2].
    destruct y1 as [| s1 | |]; try discriminate; [| destruct G1; discriminate].
    rewrite Hinf. destruct s1; cbn [IEEE.rank cond_Zopp] in H |- *; [| lia].
    repeat split; try apply A2; try reflexivity. lia.
  - destruct y1 as [| s1 | |]; try discriminate; [| destruct G1; discriminate].
    destruct y2 as [| s2 | |]; try discriminate; [| destruct G2; discriminate].
    rewrite !Hinf. repeat split; try reflexivity. exact H.
Qed.

Lemma SFsub_mono (a y1 y2 : spec_float) :
  good a -> is_finite a = true -> good y1 -> good y2 ->
  rank y1 <= rank y2 ->
  good (SFsub prec emax y1 a) /\ good (SFsub prec emax y2 a)
  /\ rank (SFsub prec emax y1 a) <= rank (SFsub prec emax y2 a).
Proof.
  intros Ga Fa G1 G2 H.
  assert (Hinf : forall sy, SFsub prec emax (S754_infinity sy) a
                            = S754_infinity sy).
  { intros sy. destruct a; try discriminate. reflexivity. }
  assert (Hfz : forall y, good y -> finite_or_zero y = true ->
                          good (SFsub prec emax y a)
                          /\ - cap <= rank (SFsub prec emax y a) <= cap).
  { intros y Gy Fy. destruct (SFsub_rank y a Gy Fy Ga Fa) as [G R].
    split; [exact G |]. rewrite R.
    apply (sround_range). lia. }
  pose proof (cap_pos) as HC.
  destruct (finite_or_zero y1) eqn:F1; destruct (finite_or_zero y2) eqn:F2.
  - destruct (SFsub_rank y1 a G1 F1 Ga Fa) as [A1 R1].
    destruct (SFsub_rank y2 a G2 F2 Ga Fa) as [A2 R2].
    repeat split; try apply A1; try apply A2. rewrite R1, R2.
    apply (sround_mono); lia.
  - pose proof (rank_lt_cap y1 G1 F1) as B1. destruct (Hfz y1 G1 F1) as [A1 R1].
    destruct y2 as [| s2 | |]; try discriminate; [| destruct G2; discriminate].
    rewrite Hinf. destruct s2; cbn [IEEE.rank cond_Zopp] in H |- *; [lia |].
    repeat split; try apply A1; try reflexivity. lia.
  - pose proof (rank_lt_cap y2 G2 F2) as B2. destruct (Hfz y2 G2 F2) as [A2 R2].
    destruct y1 as [| s1 | |]; try discriminate; [| destruct G1; discriminate].
    rewrite Hinf. destruct s1; cbn [IEEE.rank cond_Zopp] in H |- *; [| lia].
    repeat split; try apply A2; try reflexivity. lia.
  - destruct y1 as [| s1 | |]; try discriminate; [| destruct G1; discriminate].
    destruct y2 as [| s2 | |]; try discriminate; [| destruct G2; discriminate].
    rewrite !Hinf. repeat split; try reflexivity. exact H.
Qed.

(** Subtracting one finite number, representable or not, from two
    numbers of the format preserves their order. *)
Lemma SFsub_any_mono (sc : bool) (mc : positive) (ec : Z) (x1 x2 : spec_float) :
  good x1 -> is_finite x1 = true -> good x2 -> is_finite x2 = true ->
  rank x1 <= rank x2 ->
  good (SFsub prec emax x1 (S754_finite sc mc ec))
  /\ good (SFsub prec emax x2 (S754_finite sc mc ec))
  /\ rank (SFsub prec emax x1 (S754_finite sc mc ec))
     <= rank (SFsub prec emax x2 (S754_finite sc mc ec)).
Proof.
  intros G1 F1 G2 F2 H.
  destruct x1 as [| | | s1 m1 e1]; try discriminate.
  destruct x2 as [| | | s2 m2 e2]; try discriminate.
  pose proof (good_finite_exp _ _ _ G1). pose proof (good_finite_exp _ _ _ G2).
  remember (Z.min ec emin) as L eqn:HL.
  destruct (SFsub_finite_rank L s1 sc m1 mc e1 ec) as [A1 R1]; try lia.
  destruct (SFsub_finite_rank L s2 sc m2 mc e2 ec) as [A2 R2]; try lia.
  repeat split; try apply A1; try apply A2. rewrite R1, R2.
  apply (sround_mono); [lia |].
  rewrite (sval_rank L s1 m1 e1), (sval_rank L s2 m2 e2) by lia.
  assert (HP : 0 < 2 ^ (emin - L)) by (apply pow2_pos; lia).
  nia.
Qed.

(** ** No operation on numbers invents a NaN *)

Lemma finish_not_nan (sx : bool) (N t : Z) :
  0 <= N -> is_nan (finish sx N t) = false.
Proof.
  intros HN. unfold IEEE.finish, shr_fexp.
  pose proof (shr_m_nonneg (shr_record_of_loc N loc_Exact) t
                (fexp (Zdigits2 N + t) - t)) as H.
  rewrite shr_record_of_loc_m in H. specialize (H HN).
  destruct (shr (shr_record_of_loc N loc_Exact) t
              (fexp (Zdigits2 N + t) - t)) as [mrs e].
  cbn [fst] in H. destruct (shr_m mrs) as [|m|m]; [reflexivity | | lia].
  destruct (e <=? emax - prec); reflexivity.
Qed.

Lemma binary_round_aux_not_nan (sx : bool) (m e : Z) (l : location) :
  0 <= m -> is_nan (binary_round_aux prec emax sx m e l) = false.
Proof.
  intros Hm. rewrite binary_round_aux_finish. apply finish_not_nan.
  apply round_nearest_even_nonneg. unfold shr_fexp. apply shr_m_nonneg.
  now rewrite shr_record_of_loc_m.
Qed.

Lemma SFmul_not_nan (x y : spec_float) :
  is_nan x = false -> is_finite y = true ->
  is_nan (SFmul prec emax x y) = false.
Proof.
  intros Hx Hy. destruct y as [| | | sy my ey]; try discriminate.
  destruct x as [sx | sx | | sx mx ex]; try discriminate; cbn [SFmul];
    try reflexivity.
  apply binary_round_aux_not_nan. lia.
Qed.

Lemma SFdiv_finite_not_nan (sx sy : bool) (mx my : positive) (ex ey : Z) :
  is_nan (SFdiv prec emax (S754_finite sx mx ex) (S754_finite sy my ey))
  = false.
Proof.
  cbn [SFdiv]. unfold SFdiv_core_binary.
  set (s := ex - ey - _).
  set (m' := match s with Z.pos _ => Z.shiftl (Z.pos mx) s
                        | 0 => Z.pos mx | Z.neg _ => 0 end).
  assert (Hm' : 0 <= m').
  { unfold m'. destruct s; try lia. apply Z.shiftl_nonneg. lia. }
  pose proof (Z.div_pos m' (Z.pos my) Hm' ltac:(lia)) as Hq.
  unfold Z.div in Hq. destruct (Z.div_eucl m' (Z.pos my)) as [q r].
  apply binary_round_aux_not_nan. exact Hq.
Qed.

Lemma SFmul_comm (x y : spec_float) :
  SFmul prec emax x y = SFmul prec emax y x.
Proof.
  destruct x as [sx | sx | | sx mx ex], y as [sy | sy | | sy my ey];
    cbn [SFmul]; rewrite ?(xorb_comm sy sx); try reflexivity.
  now rewrite (Pos.mul_comm my mx), (Z.add_comm ey ex).
Qed.

(** Two numbers of the format with the same value are the same number,
    signed zeros apart. *)
Lemma rank_inj (x y : spec_float) :
  good x -> good y -> is_finite y = true -> rank x = rank y -> x = y.
Proof.
  intros Gx Gy Fy H. pose proof cap_pos as HC.
  destruct y as [| | | sy my ey]; try discriminate.
  pose proof (mag_range my ey (proj1 Gy)) as Ry.
  destruct x as [sx | sx | | sx mx ex];
    try (destruct Gx; discriminate); cbn [IEEE.rank] in H.
  - destruct sy; cbn [cond_Zopp] in H; lia.
  - destruct sx, sy; cbn [cond_Zopp] in H; lia.
  - pose proof (mag_range mx ex (proj1 Gx)) as Rx.
    assert (Hs : sx = sy) by (destruct sx, sy; cbn [cond_Zopp] in H; lia).
    subst sy.
    assert (Hm : mag mx ex = mag my ey) by (destruct sx; cbn [cond_Zopp] in H; lia).
    apply Z.compare_eq_iff in Hm.
    rewrite (mag_compare mx my ex ey (proj1 Gx) (proj1 Gy)) in Hm.
    destruct (Z.compare_spec ex ey) as [E | L | G]; try discriminate.
    apply Pos.compare_eq in Hm. now subst.
Qed.

End Binary.
(* ------------------------------------------------------------------ *)
(** * binary64: the constants and the arithmetic of the detector *)

Section Binary64.

Abbreviation good64 := (IEEE.good F64.prec F64.emax).
Abbreviation rank64 := (IEEE.rank F64.prec F64.emax).

Lemma prec_pos : 0 < F64.prec.
Proof. reflexivity. Qed.

Lemma prec_lt_emax : F64.prec < F64.emax.
Proof. reflexivity. Qed.

Lemma good64_intro (x : F64.float) :
  valid_binary F64.prec F64.emax x && negb (is_nan x) = true -> good64 x.
Proof.
  rewrite andb_true_iff, negb_true_iff. intros [H1 H2]. split; assumption.
Qed.

Lemma ltb_rank {x y : F64.float} :
  good64 x -> good64 y -> F64.ltb x y = (rank64 x <? rank64 y).
Proof. apply SFltb_rank; [exact prec_pos | exact prec_lt_emax]. Qed.

Lemma leb_rank {x y : F64.float} :
  good64 x -> good64 y -> F64.leb x y = (rank64 x <=? rank64 y).
Proof. apply SFleb_rank; [exact prec_pos | exact prec_lt_emax]. Qed.

(** The literals of the source, bit for bit. *)
Lemma literals :
  F64.decimal 5 1 = S754_finite false 4503599627370496 (-53)
  /\ F64.decimal 8 2 = S754_finite false 5764607523034235 (-56)
  /\ F64.decimal 3 1 = S754_finite false 5404319552844595 (-54)
  /\ F64.decimal 15 2 = S754_finite false 5404319552844595 (-55)
  /\ F64.decimal 10 2 = S754_finite false 7205759403792794 (-56)
  /\ F64.decimal 5 2 = S754_finite false 7205759403792794 (-57)
  /\ F64.decimal 95 2 = S754_finite false 8556839292003942 (-53)
  /\ F64.decimal 30 2 = F64.decimal 3 1.
Proof. repeat split; vm_compute; reflexivity. Qed.

Lemma good_literals :
  good64 (F64.decimal 5 1) /\ good64 (F64.decimal 15 2)
  /\ good64 (F64.decimal 10 2) /\ good64 (F64.decimal 5 2)
  /\ good64 (F64.decimal 95 2).
Proof. repeat split; vm_compute; reflexivity. Qed.

Lemma nearest_quotient_not_nan (a b : Z) :
  is_nan (F64.nearest_quotient a b) = false.
Proof.
  unfold F64.nearest_quotient. destruct a as [|pa|pa]; try reflexivity.
  destruct b as [|pb|pb]; try reflexivity.
  apply SFdiv_finite_not_nan.
Qed.

Lemma sub_zero_r (x : F64.float) (sz : bool) :
  is_finite x = true -> (x - S754_zero sz)%f64 = x.
Proof. destruct x; try discriminate. reflexivity. Qed.

Lemma sub_inf_r (x : F64.float) (si : bool) :
  is_finite x = true -> (x - S754_infinity si)%f64 = S754_infinity (negb si).
Proof. destruct x; try discriminate. reflexivity. Qed.

(** *** The sixteen base scores *)

Lemma base_prob_table :
  forallb (fun n => valid_binary F64.prec F64.emax (base_prob n)
                    && is_finite (base_prob n)
                    && valid_binary F64.prec F64.emax (base_prob (n + 1))
                    && is_finite (base_prob (n + 1))
                    && F64.leb (base_prob (n + 1)) (base_prob n))
    (map Z.of_nat (seq 0 16)) = true.
Proof. vm_compute. reflexivity. Qed.

Lemma finite_not_nan (x : F64.float) : is_finite x = true -> is_nan x = false.
Proof. destruct x; try discriminate; reflexivity. Qed.

Lemma base_prob_facts (n : Z) :
  0 <= n <= 15 ->
  good64 (base_prob n) /\ is_finite (base_prob n) = true
  /\ rank64 (base_prob (n + 1)) <= rank64 (base_prob n).
Proof.
  intros Hn. pose proof base_prob_table as T.
  rewrite forallb_forall in T. specialize (T n).
  assert (Hin : In n (map Z.of_nat (seq 0 16))).
  { rewrite <- (Z2Nat.id n) by lia. apply in_map. apply in_seq. lia. }
  specialize (T Hin). rewrite !andb_true_iff in T.
  destruct T as [[[[V1 F1] V2] F2] L].
  assert (G1 : good64 (base_prob n)) by (split; [exact V1 | now apply finite_not_nan]).
  assert (G2 : good64 (base_prob (n + 1)))
    by (split; [exact V2 | now apply finite_not_nan]).
  repeat split; try apply G1; try assumption.
  rewrite (leb_rank G2 G1) in L. now apply Z.leb_le.
Qed.

Lemma base_prob_mono (n m : Z) :
  0 <= n <= m -> m <= 15 -> rank64 (base_prob m) <= rank64 (base_prob n).
Proof.
  intros Hnm Hm.
  assert (G : forall k : nat, forall n, 0 <= n -> n + Z.of_nat k <= 15 ->
              rank64 (base_prob (n + Z.of_nat k)) <= rank64 (base_prob n)).
  { induction k as [|k IH]; intros j Hj Hk.
    - rewrite Z.add_0_r. lia.
    - replace (j + Z.of_nat (S k)) with (j + Z.of_nat k + 1) by lia.
      destruct (base_prob_facts (j + Z.of_nat k) ltac:(lia)) as [_ [_ St]].
      specialize (IH j Hj ltac:(lia)). lia. }
  specialize (G (Z.to_nat (m - n)) n ltac:(lia)).
  rewrite Z2Nat.id in G by lia. replace (n + (m - n)) with m in G by lia.
  apply G. lia.
Qed.

(** *** The length adjustment and the clamp preserve the order *)

Lemma length_adjust_mono (wc : Z) (y1 y2 : F64.float) :
  good64 y1 -> good64 y2 -> rank64 y1 <= rank64 y2 ->
  good64 (length_adjust wc y1) /\ good64 (length_adjust wc y2)
  /\ rank64 (length_adjust wc y1) <= rank64 (length_adjust wc y2).
Proof.
  intros G1 G2 H. destruct good_literals as [_ [G15 [G10 _]]].
  unfold length_adjust. destruct (wc <? 100).
  - apply (SFsub_mono F64.prec F64.emax prec_pos prec_lt_emax); auto.
  - destruct (wc >? 300).
    + apply (SFadd_mono F64.prec F64.emax prec_pos prec_lt_emax); auto.
    + auto.
Qed.

Lemma min_eq {a b : F64.float} :
  good64 a -> good64 b ->
  F64.min a b = if rank64 b <? rank64 a then b else a.
Proof. intros Ga Gb. unfold F64.min. now rewrite (ltb_rank Gb Ga). Qed.

Lemma max_eq {a b : F64.float} :
  good64 a -> good64 b ->
  F64.max a b = if rank64 a <? rank64 b then b else a.
Proof. intros Ga Gb. unfold F64.max. now rewrite (ltb_rank Ga Gb). Qed.

Lemma min_rank {a b : F64.float} :
  good64 a -> good64 b ->
  good64 (F64.min a b)
  /\ rank64 (F64.min a b) = Z.min (rank64 a) (rank64 b).
Proof.
  intros Ga Gb. rewrite (min_eq Ga Gb).
  destruct (Z.ltb_spec (rank64 b) (rank64 a)); (split; [assumption | lia]).
Qed.

Lemma max_rank {a b : F64.float} :
  good64 a -> good64 b ->
  good64 (F64.max a b)
  /\ rank64 (F64.max a b) = Z.max (rank64 a) (rank64 b).
Proof.
  intros Ga Gb. rewrite (max_eq Ga Gb).
  destruct (Z.ltb_spec (rank64 a) (rank64 b)); (split; [assumption | lia]).
Qed.

Lemma clamp_rank (z : F64.float) :
  good64 z ->
  good64 (clamp z)
  /\ rank64 (clamp z)
     = Z.max (rank64 (F64.decimal 5 2))
             (Z.min (rank64 (F64.decimal 95 2)) (rank64 z)).
Proof.
  intros Gz. destruct good_literals as [_ [_ [_ [Glo Ghi]]]].
  unfold clamp.
  destruct (min_rank Ghi Gz) as [Gm Rm].
  destruct (max_rank Glo Gm) as [Gx Rx].
  split; [exact Gx |]. now rewrite Rx, Rm.
Qed.

Lemma clamp_mono (z1 z2 : F64.float) :
  good64 z1 -> good64 z2 -> rank64 z1 <= rank64 z2 ->
  F64.leb (clamp z1) (clamp z2) = true.
Proof.
  intros G1 G2 H.
  destruct (clamp_rank z1 G1) as [C1 R1]. destruct (clamp_rank z2 G2) as [C2 R2].
  rewrite (leb_rank C1 C2). apply Z.leb_le. lia.
Qed.

(** The clamp of the source is the clamp to the closed interval on
    every number; it differs on NaN only, which it sends to 0.95. *)
Lemma clamp_spec_clamp (p : F64.float) :
  good64 p -> spec_clamp (F64.decimal 5 2) (F64.decimal 95 2) p = clamp p.
Proof.
  intros Gp. destruct good_literals as [_ [_ [_ [Glo Ghi]]]].
  assert (Hlh : rank64 (F64.decimal 5 2) < rank64 (F64.decimal 95 2)).
  { apply Z.ltb_lt. rewrite <- (ltb_rank Glo Ghi). vm_compute. reflexivity. }
  assert (Einj : forall c, good64 c -> is_finite c = true ->
                           rank64 p = rank64 c -> p = c).
  { intros c Gc Fc E.
    apply (rank_inj F64.prec F64.emax prec_pos prec_lt_emax); assumption. }
  unfold spec_clamp, clamp.
  rewrite (ltb_rank Gp Glo), (ltb_rank Ghi Gp), (min_eq Ghi Gp).
  destruct (Z.ltb_spec (rank64 p) (rank64 (F64.decimal 5 2))) as [A | A];
    destruct (Z.ltb_spec (rank64 p) (rank64 (F64.decimal 95 2))) as [C | C];
    try lia.
  - rewrite (max_eq Glo Gp).
    destruct (Z.ltb_spec (rank64 (F64.decimal 5 2)) (rank64 p)); [lia |].
    reflexivity.
  - destruct (Z.ltb_spec (rank64 (F64.decimal 95 2)) (rank64 p)) as [B | B];
      [lia |].
    rewrite (max_eq Glo Gp).
    destruct (Z.ltb_spec (rank64 (F64.decimal 5 2)) (rank64 p)) as [D | D];
      [reflexivity |].
    apply Einj; [assumption | reflexivity | lia].
  - rewrite (max_eq Glo Ghi).
    destruct (Z.ltb_spec (rank64 (F64.decimal 5 2))
                (rank64 (F64.decimal 95 2))); [| lia].
    destruct (Z.ltb_spec (rank64 (F64.decimal 95 2)) (rank64 p)) as [B | B];
      [reflexivity |].
    apply Einj; [assumption | reflexivity | lia].
Qed.

(** *** The score before the clamp *)

Lemma pre_clamp_chain (n m : Z) (r : F64.float) (wc : Z) :
  0 <= n <= m -> m <= 15 -> is_nan r = false ->
  good64 (pre_clamp m r wc) /\ good64 (pre_clamp n r wc)
  /\ rank64 (pre_clamp m r wc) <= rank64 (pre_clamp n r wc).
Proof.
  intros Hnm Hm Hr.
  destruct (base_prob_facts n ltac:(lia)) as [Gn [Fn _]].
  destruct (base_prob_facts m ltac:(lia)) as [Gm [Fm _]].
  pose proof (base_prob_mono n m Hnm Hm) as Hb.
  unfold pre_clamp. apply length_adjust_mono; destruct (wc >? 0); try assumption.
  all: pose proof (SFmul_not_nan F64.prec F64.emax r (F64.decimal 3 1) Hr
                     eq_refl) as Hc;
    change (SFmul F64.prec F64.emax r (F64.decimal 3 1))
      with (r * F64.decimal 3 1)%f64 in Hc;
    destruct (r * F64.decimal 3 1)%f64 as [sc | sc | | sc mc ec];
    try discriminate;
    rewrite ?sub_zero_r, ?sub_inf_r by assumption;
    try assumption; try (split; reflexivity); try lia.
  all: destruct (SFsub_any_mono F64.prec F64.emax prec_pos prec_lt_emax
                   sc mc ec (base_prob m) (base_prob n) Gm Fm Gn Fn Hb)
         as [A1 [A2 A3]]; assumption.
Qed.

End Binary64.

(* ------------------------------------------------------------------ *)
(** * The detector *)

Section Detector.

(** *** The primitives and the two sample articles, evaluated *)

Example split_example :
  split (s "  URGENT ALERT:  it's 3:00 AM ")
  = [s "URGENT"; s "ALERT:"; s "it's"; s "3:00"; s "AM"].
Proof. reflexivity. Qed.

Example isupper_example :
  map isupper [s "ALERT:"; s "3:00"; s "Am"; s "A1"; s ""]
  = [true; false; false; true; false].
Proof. reflexivity. Qed.

Example lower_example : lower (s "SHOCKING News!") = s "shocking news!".
Proof. reflexivity. Qed.

Example repeated_keyword_example :
  sensational_count (s "a lie, a LIE and one more Lie") = 1.
Proof. vm_compute. reflexivity. Qed.

Example truediv_example :
  F64.int_truediv 1 3 = Ok (S754_finite false 6004799503160661 (-54))
  /\ F64.int_truediv 1 0 = Raise ZeroDivisionError.
Proof. split; vm_compute; reflexivity. Qed.

(** The neutral article: no keyword, no upper-case token, 47 words,
    hence 0.5 - 0.15 = 0.35 and the label FAKE. *)
Example real_example_verdict :
  (sensational_count real_example, all_caps_words real_example,
   word_count real_example) = (0, 0, 47)
  /\ detect_fake_news_mock real_example
     = Ok (FAKE, F64.decimal 35 2, mock_links).
Proof. split; vm_compute; reflexivity. Qed.

(** The sensational article: 4 keywords and 4 upper-case tokens in 41
    words drive the score below the clamp. *)
Example fake_example_verdict :
  (sensational_count fake_example, all_caps_words fake_example,
   word_count fake_example) = (4, 4, 41)
  /\ detect_fake_news_mock fake_example
     = Ok (FAKE, F64.decimal 5 2, mock_links).
Proof. split; vm_compute; reflexivity. Qed.

Lemma detect_empty :
  detect_fake_news_mock [] = Ok (0, F64.decimal 5 1, []).
Proof. reflexivity. Qed.

Lemma word_count_nonneg (text : str) : 0 <= word_count text.
Proof. unfold word_count, len. lia. Qed.

(** On a non-empty text the function is the scoring arithmetic followed
    by the label and the links. *)
Lemma detect_nonempty (text : str) :
  text <> [] ->
  detect_fake_news_mock text
  = Ok (label_of (clamp (pre_clamp (sensational_count text)
                           (F64.nearest_quotient (all_caps_words text)
                              (word_count text))
                           (word_count text))),
        clamp (pre_clamp (sensational_count text)
                 (F64.nearest_quotient (all_caps_words text)
                    (word_count text))
                 (word_count text)),
        links_of (label_of (clamp (pre_clamp (sensational_count text)
                                     (F64.nearest_quotient
                                        (all_caps_words text)
                                        (word_count text))
                                     (word_count text))))).
Proof.
  intros H. destruct text as [|c t]; [congruence |].
  unfold detect_fake_news_mock, caps_ratio, F64.int_truediv, pre_clamp,
    length_adjust, base_prob, clamp, label_of, links_of.
  cbn [truthy negb]. cbv zeta.
  pose proof (word_count_nonneg (c :: t)) as Hw.
  rewrite (Z.gtb_ltb (word_count (c :: t)) 0).
  destruct (Z.ltb_spec 0 (word_count (c :: t))) as [Hp | Hp].
  - destruct (Z.eqb_spec (word_count (c :: t)) 0) as [E | E]; [lia |].
    cbn [bind]. reflexivity.
  - cbn [bind]. reflexivity.
Qed.

Lemma sum_ones_range {A : Type} (keep : A -> bool) (xs : list A) :
  0 <= sum_ones keep xs <= len xs.
Proof.
  rewrite sum_ones_length. unfold len.
  pose proof (filter_length_le keep xs). lia.
Qed.

Lemma sum_ones_zero {A : Type} (keep : A -> bool) (xs : list A) :
  sum_ones keep xs = 0 <-> forall x, In x xs -> keep x = false.
Proof.
  rewrite sum_ones_length. unfold len. split.
  - intros H x Hin. destruct (keep x) eqn:K; [| reflexivity].
    assert (Hf : In x (filter keep xs)) by (apply filter_In; auto).
    destruct (filter keep xs); [destruct Hf | simpl in H; lia].
  - intros H. assert (E : filter keep xs = []).
    { induction xs as [|x xs IH]; [reflexivity |]. simpl.
      rewrite (H x (or_introl eq_refl)). apply IH.
      intros y Hy. apply H. now right. }
    now rewrite E.
Qed.

Lemma sensational_count_range (text : str) :
  0 <= sensational_count text <= 15.
Proof. apply (sum_ones_range _ sensational_words). Qed.

Lemma all_caps_words_range (text : str) :
  0 <= all_caps_words text <= word_count text.
Proof. apply sum_ones_range. Qed.

(** *** Keywords *)

Lemma keywords_lower :
  forallb (fun kw => if list_eq_dec ascii_dec (lower kw) kw then true
                     else false) sensational_words = true.
Proof. vm_compute. reflexivity. Qed.

Lemma keyword_lower (kw : str) : In kw sensational_words -> lower kw = kw.
Proof.
  intros H. pose proof keywords_lower as K. rewrite forallb_forall in K.
  specialize (K kw H). now destruct (list_eq_dec ascii_dec (lower kw) kw).
Qed.

Lemma keywords_nodup : NoDup sensational_words.
Proof.
  assert (E : nodup (list_eq_dec ascii_dec) sensational_words
              = sensational_words) by (vm_compute; reflexivity).
  rewrite <- E. apply NoDup_nodup.
Qed.

(** The membership test on the lower-cased text is the case-insensitive
    search for a lower-case keyword. *)
Lemma contains_lower_occurs (kw text : str) :
  lower kw = kw ->
  contains kw (lower text) = true <-> occurs_ci kw text.
Proof.
  intros Hk. rewrite contains_spec. unfold occurs_ci, lower in *. split.
  - intros [pre [suf H]].
    apply map_eq_app in H. destruct H as [pre' [rest [-> [Hp Hr]]]].
    apply map_eq_app in Hr. destruct Hr as [mid [suf' [-> [Hm Hs]]]].
    exists pre', mid, suf'. split; [reflexivity |]. now rewrite Hk.
  - intros [pre [mid [suf [-> Hm]]]].
    exists (map lower_char pre), (map lower_char suf).
    rewrite !map_app, Hm, Hk. reflexivity.
Qed.

Lemma no_keyword_count (text : str) :
  sensational_count text = 0 <->
  forall kw, In kw sensational_words -> ~ occurs_ci kw text.
Proof.
  unfold sensational_count. rewrite sum_ones_zero. split.
  - intros H kw Hin Ho.
    apply (contains_lower_occurs kw text (keyword_lower kw Hin)) in Ho.
    rewrite (H kw Hin) in Ho. discriminate.
  - intros H kw Hin. destruct (contains kw (lower text)) eqn:C; [| reflexivity].
    exfalso. apply (H kw Hin).
    now apply (contains_lower_occurs kw text (keyword_lower kw Hin)).
Qed.

(** *** Upper-case tokens *)

Lemma isupper_from_bool (w : str) (cased : bool) :
  isupper_from cased w
  = (cased || existsb isupper_char w)
    && forallb (fun c => negb (islower_char c || istitle_char c)) w.
Proof.
  unfold isupper_from.
  revert cased. induction w as [|ch w IH]; intros cased; simpl.
  - now rewrite orb_false_r, andb_true_r.
  - destruct (islower_char ch || istitle_char ch); simpl.
    + now rewrite andb_false_r.
    + rewrite IH. now rewrite orb_assoc.
Qed.

Lemma caps_test (w : str) :
  isupper w && (len w >? 2) = is_caps_token w.
Proof.
  unfold isupper, is_caps_token, len. rewrite isupper_from_bool. simpl orb.
  f_equal. rewrite Z.gtb_ltb.
  destruct (Z.ltb_spec 2 (Z.of_nat (List.length w)));
    destruct (Nat.ltb_spec 2 (List.length w)); try reflexivity; lia.
Qed.

Lemma is_caps_token_spec (w : str) :
  is_caps_token w = true <-> caps_token w.
Proof.
  unfold is_caps_token, caps_token.
  rewrite !andb_true_iff, existsb_exists, forallb_forall, Nat.ltb_lt.
  split.
  - intros [[H1 H2] H3]. repeat split; try assumption;
      specialize (H2 c H); apply negb_true_iff, orb_false_iff in H2;
      apply H2.
  - intros [H1 [H2 H3]]. repeat split; try assumption.
    intros c Hc. apply negb_true_iff, orb_false_iff. auto.
Qed.

Lemma all_caps_words_filter (text : str) :
  all_caps_words text = len (filter is_caps_token (split text)).
Proof.
  unfold all_caps_words. rewrite sum_ones_length. f_equal.
  apply filter_ext. intros w. apply caps_test.
Qed.

Lemma no_caps_count (text : str) :
  all_caps_words text = 0 <->
  forall tok, In tok (split text) -> ~ caps_token tok.
Proof.
  unfold all_caps_words. rewrite sum_ones_zero. split.
  - intros H tok Hin Hc. apply is_caps_token_spec in Hc.
    rewrite <- caps_test, (H tok Hin) in Hc. discriminate.
  - intros H tok Hin. rewrite caps_test.
    destruct (is_caps_token tok) eqn:C; [| reflexivity].
    exfalso. apply (H tok Hin). now apply is_caps_token_spec.
Qed.

(** *** Whitespace *)

Lemma keywords_start :
  forallb (fun kw => match kw with
                     | a :: _ => negb (isspace_char a)
                     | [] => false
                     end) sensational_words = true.
Proof. vm_compute. reflexivity. Qed.

Lemma contains_space (kw t : str) :
  match kw with a :: _ => negb (isspace_char a) | [] => false end = true ->
  forallb isspace_char t = true -> contains kw t = false.
Proof.
  destruct kw as [|a kw]; [discriminate |]. intros Ha.
  apply negb_true_iff in Ha.
  induction t as [|b t IH]; [reflexivity |]. simpl.
  rewrite andb_true_iff. intros [Hb Ht]. rewrite (IH Ht), orb_false_r.
  destruct (Ascii.eqb_spec a b) as [-> | _]; [congruence | reflexivity].
Qed.

Lemma whitespace_features (text : str) :
  forallb isspace_char text = true ->
  sensational_count text = 0 /\ all_caps_words text = 0
  /\ word_count text = 0.
Proof.
  intros H. repeat split.
  - unfold sensational_count. apply sum_ones_zero. intros kw Hin.
    rewrite (lower_space text H). apply contains_space; [| exact H].
    pose proof keywords_start as K. rewrite forallb_forall in K. auto.
  - unfold all_caps_words. now rewrite (split_space text H).
  - unfold word_count. now rewrite (split_space text H).
Qed.

(** *** The clamp keeps every score, NaN included, in the interval *)

Lemma ltb_leb (x y : F64.float) : F64.ltb x y = true -> F64.leb x y = true.
Proof.
  unfold F64.ltb, F64.leb, SFltb, SFleb.
  destruct (SFcompare x y) as [[| |]|]; congruence.
Qed.

Lemma clamp_bounds (z : F64.float) :
  F64.leb (F64.decimal 5 2) (clamp z) = true
  /\ F64.leb (clamp z) (F64.decimal 95 2) = true.
Proof.
  unfold clamp, F64.min.
  destruct (F64.ltb z (F64.decimal 95 2)) eqn:Hhi.
  - unfold F64.max. destruct (F64.ltb (F64.decimal 5 2) z) eqn:Hlo.
    + split; now apply ltb_leb.
    + split; vm_compute; reflexivity.
  - split; vm_compute; reflexivity.
Qed.

(** Between two texts with the same number of words and of upper-case
    tokens, the one with more keywords never gets the higher score. *)
Lemma detect_monotone_in_keywords (t1 t2 : str) :
  t1 <> [] -> t2 <> [] ->
  word_count t1 = word_count t2 -> all_caps_words t1 = all_caps_words t2 ->
  sensational_count t1 <= sensational_count t2 ->
  exists l1 p1 k1 l2 p2 k2,
    detect_fake_news_mock t1 = Ok (l1, p1, k1)
    /\ detect_fake_news_mock t2 = Ok (l2, p2, k2)
    /\ F64.leb p2 p1 = true.
Proof.
  intros H1 H2 Hw Ha Hs.
  rewrite (detect_nonempty t1 H1), (detect_nonempty t2 H2).
  do 6 eexists. split; [reflexivity |]. split; [reflexivity |].
  rewrite Hw, Ha.
  pose proof (sensational_count_range t1) as R1.
  pose proof (sensational_count_range t2) as R2.
  destruct (pre_clamp_chain (sensational_count t1) (sensational_count t2)
              (F64.nearest_quotient (all_caps_words t2) (word_count t2))
              (word_count t2) ltac:(lia) ltac:(lia)
              (nearest_quotient_not_nan _ _)) as [G2 [G1 R]].
  now apply clamp_mono.
Qed.

End Detector.

(* ------------------------------------------------------------------ *)
(** * More on rounding: scales, signs and products *)

Section BinaryMore.

Variables prec emax : Z.
Hypothesis Hprec : 0 < prec.
Hypothesis Hemax : prec < emax.

Abbreviation emin := (SpecFloat.emin prec emax).
Abbreviation fexp := (SpecFloat.fexp prec emax).
Abbreviation finish := (IEEE.finish prec emax).
Abbreviation cap := (IEEE.cap prec emax).
Abbreviation mag := (IEEE.mag prec emax).
Abbreviation rank := (IEEE.rank prec emax).
Abbreviation good := (IEEE.good prec emax).
Abbreviation round_pos := (IEEE.round_pos prec emax).
Abbreviation sround := (IEEE.sround prec emax).

Lemma emin_nonpos : emin <= 0.
Proof. rewrite (emin_eq prec emax). lia. Qed.

(** Rounding does not depend on the unit in which the value is given. *)
Lemma round_pos_scale (L W : Z) :
  L <= emin -> 0 <= W ->
  round_pos L (W * 2 ^ (emin - L)) = round_pos emin W.
Proof.
  intros HL HW. destruct (Z.eq_dec W 0) as [-> | N0].
  - rewrite Z.mul_0_l.
    rewrite !(round_pos_zero prec emax Hprec Hemax) by lia. reflexivity.
  - unfold IEEE.round_pos. rewrite Zdigits2_shift by lia.
    replace (Zdigits2 W + (emin - L) + L) with (Zdigits2 W + emin) by lia.
    pose proof (fexp_ge_emin prec emax (Zdigits2 W + emin)) as Ht.
    replace (fexp (Zdigits2 W + emin) - L)
      with (fexp (Zdigits2 W + emin) - emin + (emin - L)) by lia.
    rewrite rne_scale by lia. reflexivity.
Qed.

Lemma sround_scale (L W : Z) :
  L <= emin -> sround L (W * 2 ^ (emin - L)) = sround emin W.
Proof.
  intros HL. pose proof (pow2_pos (emin - L) ltac:(lia)) as HP.
  unfold IEEE.sround.
  destruct (Z.ltb_spec W 0);
    destruct (Z.ltb_spec (W * 2 ^ (emin - L)) 0); try nia.
  - rewrite <- Z.mul_opp_l, round_pos_scale by lia. reflexivity.
  - apply round_pos_scale; lia.
Qed.

(** *** Signs *)

Lemma finish_sign (sx : bool) (N t : Z) :
  0 <= N -> sign_is sx (finish sx N t) = true.
Proof.
  intros HN. unfold IEEE.finish, shr_fexp.
  pose proof (shr_m_nonneg (shr_record_of_loc N loc_Exact) t
                (fexp (Zdigits2 N + t) - t)) as H.
  rewrite shr_record_of_loc_m in H. specialize (H HN).
  destruct (shr (shr_record_of_loc N loc_Exact) t
              (fexp (Zdigits2 N + t) - t)) as [mrs e].
  cbn [fst] in H. destruct (shr_m mrs) as [|m|m]; [| | lia].
  - apply eqb_reflx.
  - destruct (e <=? emax - prec); apply eqb_reflx.
Qed.

Lemma binary_round_aux_sign (sx : bool) (m e : Z) (l : location) :
  0 <= m -> sign_is sx (binary_round_aux prec emax sx m e l) = true.
Proof.
  intros Hm. rewrite (binary_round_aux_finish prec emax). apply finish_sign.
  apply round_nearest_even_nonneg. unfold shr_fexp. apply shr_m_nonneg.
  now rewrite shr_record_of_loc_m.
Qed.

Lemma SFdiv_finite_sign (sx sy : bool) (mx my : positive) (ex ey : Z) :
  sign_is (xorb sx sy)
    (SFdiv prec emax (S754_finite sx mx ex) (S754_finite sy my ey)) = true.
Proof.
  cbn [SFdiv]. unfold SFdiv_core_binary.
  set (sh := ex - ey - _).
  set (m' := match sh with Z.pos _ => Z.shiftl (Z.pos mx) sh
                         | 0 => Z.pos mx | Z.neg _ => 0 end).
  assert (Hm' : 0 <= m').
  { unfold m'. destruct sh; try lia. apply Z.shiftl_nonneg. lia. }
  pose proof (Z.div_pos m' (Z.pos my) Hm' ltac:(lia)) as Hq.
  unfold Z.div in Hq. destruct (Z.div_eucl m' (Z.pos my)) as [q r].
  apply binary_round_aux_sign. exact Hq.
Qed.

Lemma SFmul_sign (x y : spec_float) :
  sign_is false x = true -> sign_is false y = true ->
  is_finite y = true ->
  sign_is false (SFmul prec emax x y) = true.
Proof.
  intros Hx Hy Fy. destruct y as [| | | sy my ey]; try discriminate.
  destruct x as [sx | sx | | sx mx ex]; try discriminate;
    cbn [sign_is] in Hx, Hy; apply eqb_prop in Hx; apply eqb_prop in Hy;
    subst; cbn [SFmul xorb]; try reflexivity.
  apply binary_round_aux_sign. lia.
Qed.

(** Subtracting a number that is not negative does not raise a number
    of the format. *)
Lemma SFsub_lower (x c : spec_float) :
  good x -> is_finite x = true -> sign_is false c = true ->
  good (SFsub prec emax x c)
  /\ rank (SFsub prec emax x c) <= rank x.
Proof.
  intros Gx Fx Hc. destruct x as [| | | sx mx ex]; try discriminate.
  pose proof (good_finite_exp prec emax _ _ _ Gx) as Hex.
  destruct c as [sc | sc | | sc mc ec]; try discriminate;
    cbn [sign_is] in Hc; apply eqb_prop in Hc; subst sc.
  - cbn [SFsub]. split; [exact Gx | lia].
  - cbn [SFsub negb]. split; [split; reflexivity |].
    pose proof (good_rank_range prec emax Hprec Hemax _ Gx).
    cbn [IEEE.rank cond_Zopp] in *. lia.
  - remember (Z.min ec emin) as L eqn:HL.
    destruct (SFsub_finite_rank prec emax Hprec Hemax L sx false mx mc ex ec)
      as [G R]; try lia.
    split; [exact G |]. rewrite R.
    rewrite <- (sround_fixed prec emax Hprec sx mx ex (proj1 Gx)) at 1.
    rewrite <- (sround_scale L) by lia.
    apply (sround_mono prec emax Hprec Hemax); [lia |].
    rewrite (sval_rank prec emax L sx mx ex) by lia.
    unfold IEEE.sval. cbn [cond_Zopp].
    pose proof (pow2_pos (ec - L) ltac:(lia)). nia.
Qed.

(** *** Products *)

(** The product of two canonical mantissas is long enough for its
    exponent, so that [SFmul] rounds it as [binary_round] would. *)
Lemma product_exponent (mx my : positive) (ex ey : Z) :
  bounded prec emax mx ex = true -> bounded prec emax my ey = true ->
  ex + ey <= fexp (Zdigits2 (Z.pos (mx * my)) + (ex + ey)).
Proof.
  intros Hx Hy.
  destruct (bounded_facts prec emax mx ex Hx) as [Hex [Hdx Hnx]].
  destruct (bounded_facts prec emax my ey Hy) as [Hey [Hdy Hny]].
  pose proof emin_nonpos as He0.
  rewrite (fexp_eq prec emax).
  destruct (Z_le_gt_dec (ex + ey) emin) as [Hle | Hgt]; [lia |].
  pose proof (Zdigits2_bounds (Z.pos mx) ltac:(lia)) as [Bx _].
  pose proof (Zdigits2_bounds (Z.pos my) ltac:(lia)) as [By _].
  pose proof (Zdigits2_pos (Z.pos mx) ltac:(lia)) as Px.
  pose proof (Zdigits2_pos (Z.pos my) ltac:(lia)) as Py.
  assert (Hd : Zdigits2 (Z.pos mx) + Zdigits2 (Z.pos my) - 1
               <= Zdigits2 (Z.pos (mx * my))).
  { rewrite Pos2Z.inj_mul.
    pose proof (pow2_pos (Zdigits2 (Z.pos mx) - 1) ltac:(lia)) as Qx.
    pose proof (pow2_pos (Zdigits2 (Z.pos my) - 1) ltac:(lia)) as Qy.
    assert (Hprod : 2 ^ (Zdigits2 (Z.pos mx) - 1 + (Zdigits2 (Z.pos my) - 1))
                    <= Z.pos mx * Z.pos my)
      by (rewrite pow2_split by lia; nia).
    pose proof (Zdigits2_bounds (Z.pos mx * Z.pos my) ltac:(lia)) as [_ Bp].
    destruct (Z_le_gt_dec (Zdigits2 (Z.pos mx) + Zdigits2 (Z.pos my) - 1)
                (Zdigits2 (Z.pos mx * Z.pos my))) as [|G]; [assumption |].
    pose proof (pow2_le (Zdigits2 (Z.pos mx * Z.pos my))
                  (Zdigits2 (Z.pos mx) - 1 + (Zdigits2 (Z.pos my) - 1))
                  ltac:(pose proof (Zdigits2_pos (Z.pos mx * Z.pos my)); lia)).
    lia. }
  destruct (Z_le_gt_dec ex emin) as [Lx | Gx].
  - specialize (Hny ltac:(lia)). lia.
  - specialize (Hnx ltac:(lia)). lia.
Qed.

Lemma binary_round_aux_round (sx : bool) (m : positive) (e : Z) :
  e <= fexp (Zdigits2 (Z.pos m) + e) ->
  binary_round_aux prec emax sx (Z.pos m) e loc_Exact
  = binary_round prec emax sx m e.
Proof.
  intros H. unfold binary_round, shl_align.
  change (Z.pos (digits2_pos m)) with (Zdigits2 (Z.pos m)).
  destruct (fexp (Zdigits2 (Z.pos m) + e) - e) eqn:E; try reflexivity. lia.
Qed.

Lemma SFmul_rank (x y : spec_float) :
  good x -> is_finite x = true -> good y -> is_finite y = true ->
  good (SFmul prec emax x y)
  /\ rank (SFmul prec emax x y) = sround (2 * emin) (rank x * rank y).
Proof.
  intros Gx Fx Gy Fy.
  destruct x as [| | | sx mx ex]; try discriminate.
  destruct y as [| | | sy my ey]; try discriminate.
  pose proof (good_finite_exp prec emax _ _ _ Gx) as Hex.
  pose proof (good_finite_exp prec emax _ _ _ Gy) as Hey.
  pose proof emin_nonpos as He0.
  pose proof (mag_range prec emax Hprec mx ex (proj1 Gx)) as Rx.
  pose proof (mag_range prec emax Hprec my ey (proj1 Gy)) as Ry.
  cbn [SFmul].
  rewrite (binary_round_aux_round _ _ _
             (product_exponent mx my ex ey (proj1 Gx) (proj1 Gy))).
  destruct (binary_round_rank prec emax Hprec Hemax (xorb sx sy) (mx * my)
              (ex + ey) (2 * emin)) as [G R]; try lia.
  split; [exact G |]. rewrite R. cbn [IEEE.rank].
  assert (E : Z.pos (mx * my) * 2 ^ (ex + ey - 2 * emin) = mag mx ex * mag my ey).
  { unfold IEEE.mag. rewrite Pos2Z.inj_mul.
    replace (ex + ey - 2 * emin) with ((ex - emin) + (ey - emin)) by lia.
    rewrite pow2_split by lia. ring. }
  rewrite E. unfold IEEE.sround.
  destruct sx, sy; cbn [xorb cond_Zopp].
  - destruct (Z.ltb_spec (- mag mx ex * - mag my ey) 0); [nia |].
    f_equal. ring.
  - destruct (Z.ltb_spec (- mag mx ex * mag my ey) 0); [| nia].
    do 2 f_equal. ring.
  - destruct (Z.ltb_spec (mag mx ex * - mag my ey) 0); [| nia].
    do 2 f_equal. ring.
  - destruct (Z.ltb_spec (mag mx ex * mag my ey) 0); [nia |]. reflexivity.
Qed.

(** Multiplying by a fixed positive number of the format preserves the
    order. *)
Lemma SFmul_mono (c x1 x2 : spec_float) :
  good c -> is_finite c = true -> 0 < rank c ->
  good x1 -> is_finite x1 = true -> good x2 -> is_finite x2 = true ->
  rank x1 <= rank x2 ->
  good (SFmul prec emax x1 c) /\ good (SFmul prec emax x2 c)
  /\ rank (SFmul prec emax x1 c) <= rank (SFmul prec emax x2 c).
Proof.
  intros Gc Fc Pc G1 F1 G2 F2 H.
  destruct (SFmul_rank x1 c G1 F1 Gc Fc) as [A1 R1].
  destruct (SFmul_rank x2 c G2 F2 Gc Fc) as [A2 R2].
  repeat split; try apply A1; try apply A2. rewrite R1, R2.
  pose proof emin_nonpos.
  apply (sround_mono prec emax Hprec Hemax); [lia | nia].
Qed.

(** Subtracting from a fixed number of the format reverses the order. *)
Lemma SFsub_antimono (a y1 y2 : spec_float) :
  good a -> is_finite a = true ->
  good y1 -> is_finite y1 = true -> good y2 -> is_finite y2 = true ->
  rank y1 <= rank y2 ->
  good (SFsub prec emax a y1) /\ good (SFsub prec emax a y2)
  /\ rank (SFsub prec emax a y2) <= rank (SFsub prec emax a y1).
Proof.
  intros Ga Fa G1 F1 G2 F2 H.
  destruct (SFsub_rank prec emax Hprec Hemax a y1 Ga
              ltac:(destruct a; try discriminate; reflexivity) G1 F1)
    as [A1 R1].
  destruct (SFsub_rank prec emax Hprec Hemax a y2 Ga
              ltac:(destruct a; try discriminate; reflexivity) G2 F2)
    as [A2 R2].
  repeat split; try apply A1; try apply A2. rewrite R1, R2.
  apply (sround_mono prec emax Hprec Hemax); lia.
Qed.

(** A number of the format strictly between zero and the infinities is
    finite. *)
Lemma rank_pos_finite (x : spec_float) :
  good x -> 0 < rank x < cap -> is_finite x = true.
Proof.
  intros Gx H. destruct x as [sx | sx | | sx m e]; try reflexivity;
    cbn [IEEE.rank] in H; try lia.
  destruct sx; cbn [cond_Zopp] in H; lia.
Qed.

End BinaryMore.

(* ------------------------------------------------------------------ *)
(** * Bounds on the score *)

Section ScoreBounds.

Abbreviation good64 := (IEEE.good F64.prec F64.emax).
Abbreviation rank64 := (IEEE.rank F64.prec F64.emax).

Lemma rank_le_leb (x y : F64.float) :
  good64 x -> good64 y -> F64.leb x y = true -> rank64 x <= rank64 y.
Proof. intros Gx Gy H. rewrite (leb_rank Gx Gy) in H. now apply Z.leb_le. Qed.

Lemma rank_lt_ltb (x y : F64.float) :
  good64 x -> good64 y -> F64.ltb x y = true -> rank64 x < rank64 y.
Proof. intros Gx Gy H. rewrite (ltb_rank Gx Gy) in H. now apply Z.ltb_lt. Qed.

Lemma nearest_quotient_sign (a b : Z) :
  sign_is false (F64.nearest_quotient a b) = true.
Proof.
  unfold F64.nearest_quotient. destruct a as [|pa|pa]; try reflexivity.
  destruct b as [|pb|pb]; try reflexivity.
  apply (SFdiv_finite_sign F64.prec F64.emax false false).
Qed.

Lemma sign_not_nan (sx : bool) (x : F64.float) :
  sign_is sx x = true -> is_nan x = false.
Proof. destruct x; try discriminate; reflexivity. Qed.

(** The caps adjustment never raises the score. *)
Lemma pre_clamp_upper (n : Z) (r : F64.float) (wc : Z) :
  0 <= n <= 15 -> sign_is false r = true ->
  good64 (pre_clamp n r wc)
  /\ good64 (length_adjust wc (base_prob n))
  /\ rank64 (pre_clamp n r wc) <= rank64 (length_adjust wc (base_prob n)).
Proof.
  intros Hn Hr. destruct (base_prob_facts n Hn) as [Gn [Fn _]].
  unfold pre_clamp.
  assert (H : good64 (if wc >? 0 then (base_prob n - r * F64.decimal 3 1)%f64
                      else base_prob n)
              /\ rank64 (if wc >? 0
                         then (base_prob n - r * F64.decimal 3 1)%f64
                         else base_prob n) <= rank64 (base_prob n)).
  { destruct (wc >? 0); [| split; [exact Gn | lia]].
    apply (SFsub_lower F64.prec F64.emax prec_pos prec_lt_emax);
      try assumption.
    apply (SFmul_sign F64.prec F64.emax); [exact Hr | reflexivity..]. }
  destruct H as [G R].
  destruct (length_adjust_mono wc _ _ G Gn R) as [A1 [A2 A3]]. auto.
Qed.

Lemma pre_clamp_le (n k : Z) (r : F64.float) (wc : Z) :
  0 <= k <= n -> n <= 15 -> sign_is false r = true ->
  good64 (pre_clamp n r wc)
  /\ good64 (length_adjust wc (base_prob k))
  /\ rank64 (pre_clamp n r wc) <= rank64 (length_adjust wc (base_prob k)).
Proof.
  intros Hk Hn Hr.
  destruct (pre_clamp_upper n r wc ltac:(lia) Hr) as [G1 [G2 R]].
  destruct (base_prob_facts n ltac:(lia)) as [Gn _].
  destruct (base_prob_facts k ltac:(lia)) as [Gk _].
  destruct (length_adjust_mono wc _ _ Gn Gk (base_prob_mono k n Hk Hn))
    as [_ [A2 A3]].
  repeat split; try apply G1; try apply A2. lia.
Qed.

(** A score whose bound is below 0.5 gives the label FAKE and the
    links. *)
Lemma clamp_below_half (z b : F64.float) :
  good64 z -> good64 b -> rank64 z <= rank64 b ->
  F64.leb (F64.decimal 5 1) (clamp b) = false ->
  label_of (clamp z) = 0 /\ F64.leb (clamp z) (clamp b) = true.
Proof.
  intros Gz Gb R Hb. destruct good_literals as [G05 _].
  destruct (clamp_rank z Gz) as [Cz Rz]. destruct (clamp_rank b Gb) as [Cb Rb].
  pose proof (clamp_mono z b Gz Gb R) as M. split; [| exact M].
  unfold label_of. rewrite (leb_rank G05 Cz).
  rewrite (leb_rank G05 Cb) in Hb. rewrite (leb_rank Cz Cb) in M.
  apply Z.leb_gt in Hb. apply Z.leb_le in M.
  destruct (Z.leb_spec (rank64 (F64.decimal 5 1)) (rank64 (clamp z)));
    [lia | reflexivity].
Qed.

(** A score whose bound is at most 0.05 is clamped to 0.05. *)
Lemma clamp_floor (z b : F64.float) :
  good64 z -> good64 b -> rank64 z <= rank64 b ->
  F64.leb b (F64.decimal 5 2) = true ->
  clamp z = F64.decimal 5 2.
Proof.
  intros Gz Gb R Hb. destruct good_literals as [_ [_ [_ [Glo Ghi]]]].
  destruct (clamp_rank z Gz) as [Cz Rz].
  pose proof (rank_le_leb b _ Gb Glo Hb) as Hb'.
  apply (rank_inj F64.prec F64.emax prec_pos prec_lt_emax);
    [assumption | assumption | reflexivity |].
  rewrite Rz. lia.
Qed.

End ScoreBounds.

(* ------------------------------------------------------------------ *)
(** * The error of one rounding *)

Section ErrorBounds.

Variables prec emax : Z.
Hypothesis Hprec : 0 < prec.
Hypothesis Hemax : prec < emax.

Abbreviation emin := (SpecFloat.emin prec emax).
Abbreviation fexp := (SpecFloat.fexp prec emax).
Abbreviation cap := (IEEE.cap prec emax).
Abbreviation rank := (IEEE.rank prec emax).
Abbreviation good := (IEEE.good prec emax).
Abbreviation round_pos := (IEEE.round_pos prec emax).
Abbreviation sround := (IEEE.sround prec emax).

(** Rounding to nearest moves a value by at most half a unit. *)
Lemma rne_error (V K : Z) :
  0 <= K -> 2 * Z.abs (rne V K * 2 ^ K - V) <= 2 ^ K.
Proof.
  intros HK. pose proof (pow2_pos K HK) as HP.
  pose proof (Z.div_mod V (2 ^ K) ltac:(lia)) as D.
  pose proof (Z.mod_pos_bound V (2 ^ K) HP) as R.
  unfold rne, location_of, round_nearest_even.
  destruct (Z.eqb_spec (V mod 2 ^ K) 0) as [Z0 | Z0]; [nia |].
  destruct (Z.compare_spec (2 * (V mod 2 ^ K)) (2 ^ K)); try nia.
  destruct (Z.even (V / 2 ^ K)); nia.
Qed.

(** Below [2^k] the units are at most [2^(k - prec)]: a value is moved
    by at most half of that, and stays at most [2^k]. *)
Lemma round_pos_error (W k : Z) :
  prec <= k -> k < emax - emin -> 0 <= W < 2 ^ k ->
  2 * Z.abs (round_pos emin W - W) <= 2 ^ (k - prec)
  /\ round_pos emin W <= 2 ^ k.
Proof.
  intros Hk Hc [H0 HW].
  pose proof (pow2_pos (k - prec) ltac:(lia)) as PK.
  pose proof (pow2_pos k ltac:(lia)) as PK'.
  destruct (Z.eq_dec W 0) as [-> | N0].
  { rewrite (round_pos_zero prec emax Hprec Hemax) by lia. simpl. lia. }
  assert (HW0 : 0 < W) by lia.
  destruct (Zdigits2_bounds W HW0) as [D1 D2].
  pose proof (Zdigits2_pos W HW0) as D0.
  assert (Dk : Zdigits2 W <= k).
  { destruct (Z_le_gt_dec (Zdigits2 W) k) as [H | H]; [exact H |].
    pose proof (pow2_le k (Zdigits2 W - 1) ltac:(lia)). lia. }
  unfold IEEE.round_pos. rewrite (fexp_eq prec emax).
  set (d := Zdigits2 W) in *.
  set (t := Z.max (d + emin - prec) emin - emin).
  assert (Ht : 0 <= t <= k - prec /\ t < d) by lia.
  pose proof (rne_error W t ltac:(lia)) as E.
  pose proof (pow2_pos t ltac:(lia)) as PT.
  pose proof (pow2_le t (k - prec) ltac:(lia)) as PL.
  pose proof (rne_upper W t (d - t) ltac:(lia) ltac:(lia)) as U.
  replace (t + (d - t)) with d in U by lia. specialize (U D2).
  pose proof (pow2_split t (d - t) ltac:(lia) ltac:(lia)) as S.
  replace (t + (d - t)) with d in S by lia.
  pose proof (pow2_le d k ltac:(lia)) as Pdk.
  pose proof (pow2_lt k (emax - emin) ltac:(lia)) as Pc.
  fold cap in Pc.
  assert (B : rne W t * 2 ^ t <= 2 ^ d) by nia.
  rewrite Z.min_l by lia. split; lia.
Qed.

Lemma sround_error (W k : Z) :
  prec <= k -> k < emax - emin -> Z.abs W < 2 ^ k ->
  2 * Z.abs (sround emin W - W) <= 2 ^ (k - prec)
  /\ Z.abs (sround emin W) <= 2 ^ k.
Proof.
  intros Hk Hc HW. unfold IEEE.sround.
  destruct (Z.ltb_spec W 0) as [N | N].
  - destruct (round_pos_error (- W) k Hk Hc ltac:(lia)) as [E B].
    pose proof (round_pos_range prec emax Hprec Hemax emin (- W)
                  ltac:(lia) ltac:(lia)). lia.
  - destruct (round_pos_error W k Hk Hc ltac:(lia)) as [E B].
    pose proof (round_pos_range prec emax Hprec Hemax emin W
                  ltac:(lia) ltac:(lia)). lia.
Qed.

(** A number of the format whose value is below the infinities is
    finite or zero. *)
Lemma rank_finite_or_zero (x : spec_float) :
  good x -> Z.abs (rank x) < cap -> finite_or_zero x = true.
Proof.
  intros [V N] H. destruct x as [sx | sx | | sx m e]; try reflexivity;
    try discriminate.
  cbn [IEEE.rank] in H. destruct sx; cbn [cond_Zopp] in H; lia.
Qed.

(** A subtraction of two finite numbers whose exact difference is
    below [2^k] is off by at most half of [2^(k - prec)]. *)
Lemma SFsub_error (y a : spec_float) (k : Z) :
  prec <= k -> k < emax - emin ->
  good y -> finite_or_zero y = true -> good a -> finite_or_zero a = true ->
  Z.abs (rank y - rank a) < 2 ^ k ->
  good (SFsub prec emax y a)
  /\ finite_or_zero (SFsub prec emax y a) = true
  /\ 2 * Z.abs (rank (SFsub prec emax y a) - (rank y - rank a))
     <= 2 ^ (k - prec).
Proof.
  intros Hk Hc Gy Fy Ga Fa HV.
  pose proof (pow2_pos (k - prec) ltac:(lia)) as PK.
  pose proof (pow2_lt k (emax - emin) ltac:(pose proof (emin_nonpos prec emax Hprec Hemax); lia)) as Pc.
  fold cap in Pc.
  destruct a as [sa | sa | | sa ma ea]; try discriminate.
  - destruct y as [sy | sy | | sy my ey]; try discriminate.
    + assert (E : exists sz, SFsub prec emax (S754_zero sy) (S754_zero sa)
                             = S754_zero sz)
        by (destruct sy, sa; eexists; reflexivity).
      destruct E as [sz ->]. repeat split. simpl. lia.
    + cbn [SFsub]. repeat split; try apply Gy.
      change (rank (S754_zero sa)) with 0. rewrite Z.sub_0_r, Z.sub_diag.
      simpl. lia.
  - destruct (SFsub_rank prec emax Hprec Hemax y (S754_finite sa ma ea)
                Gy Fy Ga eq_refl) as [G R].
    destruct (sround_error (rank y - rank (S754_finite sa ma ea)) k Hk Hc HV)
      as [E B].
    split; [exact G |]. split.
    + apply rank_finite_or_zero; [exact G |]. rewrite R. lia.
    + rewrite R. exact E.
Qed.

Lemma SFadd_error (y a : spec_float) (k : Z) :
  prec <= k -> k < emax - emin ->
  good y -> finite_or_zero y = true -> good a -> is_finite a = true ->
  Z.abs (rank y + rank a) < 2 ^ k ->
  good (SFadd prec emax y a)
  /\ finite_or_zero (SFadd prec emax y a) = true
  /\ 2 * Z.abs (rank (SFadd prec emax y a) - (rank y + rank a))
     <= 2 ^ (k - prec).
Proof.
  intros Hk Hc Gy Fy Ga Fa HV.
  pose proof (pow2_lt k (emax - emin) ltac:(pose proof (emin_nonpos prec emax Hprec Hemax); lia)) as Pc.
  fold cap in Pc.
  destruct (SFadd_rank prec emax Hprec Hemax y a Gy Fy Ga Fa) as [G R].
  destruct (sround_error (rank y + rank a) k Hk Hc HV) as [E B].
  split; [exact G |]. split.
  - apply rank_finite_or_zero; [exact G |]. rewrite R. lia.
  - rewrite R. exact E.
Qed.

End ErrorBounds.

(* ------------------------------------------------------------------ *)
(** * The step of the score *)

Section ScoreStep.

Abbreviation good64 := (IEEE.good F64.prec F64.emax).
Abbreviation rank64 := (IEEE.rank F64.prec F64.emax).

Lemma sign_rank_nonneg (x : F64.float) :
  sign_is false x = true -> 0 <= rank64 x.
Proof.
  destruct x as [sx | sx | | sx m e]; cbn [sign_is];
    try (intros _; reflexivity); try discriminate;
    intros H; apply eqb_prop in H; subst sx; unfold IEEE.rank;
    cbn [cond_Zopp].
  - apply Z.lt_le_incl, (cap_pos F64.prec F64.emax prec_pos prec_lt_emax).
  - unfold mag. apply Z.mul_nonneg_nonneg; [lia |].
    apply Z.pow_nonneg. lia.
Qed.

(** A ratio is a number of the format, finite or zero, whose value is
    between 0 and 1. *)
Lemma ratio_facts (r : F64.float) :
  is_ratio r = true ->
  good64 r /\ finite_or_zero r = true
  /\ 0 <= rank64 r <= rank64 (F64.of_int 1).
Proof.
  unfold is_ratio. rewrite !andb_true_iff. intros [[V L0] L1].
  assert (G : good64 r) by (split; [exact V | destruct r; try reflexivity; discriminate]).
  assert (G0 : good64 (S754_zero false)) by (split; reflexivity).
  assert (G1 : good64 (F64.of_int 1)) by (split; reflexivity).
  pose proof (rank_le_leb _ _ G0 G L0) as R0.
  pose proof (rank_le_leb _ _ G G1 L1) as R1.
  change (rank64 (S754_zero false)) with 0 in R0.
  split; [exact G |]. split; [| lia].
  apply (rank_finite_or_zero F64.prec F64.emax r G).
  assert (rank64 (F64.of_int 1) < cap F64.prec F64.emax)
    by (vm_compute; reflexivity).
  lia.
Qed.

(** The caps term [r * 0.3] of a ratio lies between 0 and 0.3. *)
Lemma caps_term_range (r : F64.float) :
  is_ratio r = true ->
  good64 (r * F64.decimal 3 1)%f64
  /\ finite_or_zero (r * F64.decimal 3 1)%f64 = true
  /\ 0 <= rank64 (r * F64.decimal 3 1)%f64 <= rank64 (F64.decimal 3 1).
Proof.
  intros H. destruct (ratio_facts r H) as [G [F [R0 R1]]].
  destruct r as [sx | sx | | sx m e]; try discriminate F.
  - destruct sx; repeat split; try reflexivity; vm_compute; discriminate.
  - assert (G3 : good64 (F64.decimal 3 1)) by (split; reflexivity).
    assert (G1 : good64 (F64.of_int 1)) by (split; reflexivity).
    assert (P3 : 0 < rank64 (F64.decimal 3 1)) by (vm_compute; reflexivity).
    assert (C3 : rank64 (F64.decimal 3 1) < cap F64.prec F64.emax)
      by (vm_compute; reflexivity).
    assert (sx = false) as ->.
    { destruct sx; [| reflexivity]. exfalso. cbn [rank cond_Zopp] in R0.
      assert (0 < mag F64.prec F64.emax m e).
      { unfold mag. apply Z.mul_pos_pos; [lia |]. apply Z.pow_pos_nonneg; [lia |].
        pose proof (good_finite_exp _ _ _ _ _ G). lia. }
      lia. }
    destruct (SFmul_mono F64.prec F64.emax prec_pos prec_lt_emax
                (F64.decimal 3 1) (S754_finite false m e) (F64.of_int 1)
                G3 eq_refl P3 G eq_refl G1 eq_refl R1) as [Gc [_ Rc]].
    fold F64.mul in Gc, Rc.
    assert (E1 : (F64.of_int 1 * F64.decimal 3 1)%f64 = F64.decimal 3 1)
      by (vm_compute; reflexivity).
    rewrite E1 in Rc.
    pose proof (sign_rank_nonneg _
                  (SFmul_sign F64.prec F64.emax (S754_finite false m e)
                     (F64.decimal 3 1) eq_refl eq_refl eq_refl)) as Pc.
    fold F64.mul in Pc.
    split; [exact Gc |]. split; [| lia].
    apply (rank_finite_or_zero F64.prec F64.emax _ Gc). lia.
Qed.

(** The sixteen base scores are at most 1 in size, and two
    neighbours are 0.08 apart up to [2^-52]. *)
Lemma base_step_table :
  forallb (fun n =>
             (Z.abs (rank64 (base_prob n)) <=? 2 ^ 1074)
             && (Z.abs (rank64 (base_prob (n + 1))) <=? 2 ^ 1074)
             && (Z.abs (100 * (rank64 (base_prob n)
                               - rank64 (base_prob (n + 1)))
                        - 8 * 2 ^ 1074) <=? 100 * 2 ^ 1022))
    (map Z.of_nat (seq 0 15)) = true.
Proof. vm_compute. reflexivity. Qed.

Lemma base_step_facts (n : Z) :
  0 <= n < 15 ->
  Z.abs (rank64 (base_prob n)) <= 2 ^ 1074
  /\ Z.abs (rank64 (base_prob (n + 1))) <= 2 ^ 1074
  /\ Z.abs (100 * (rank64 (base_prob n) - rank64 (base_prob (n + 1)))
            - 8 * 2 ^ 1074) <= 100 * 2 ^ 1022.
Proof.
  intros Hn. pose proof base_step_table as T.
  rewrite forallb_forall in T. specialize (T n).
  assert (Hin : In n (map Z.of_nat (seq 0 15))).
  { rewrite <- (Z2Nat.id n) by lia. apply in_map. apply in_seq. lia. }
  specialize (T Hin). rewrite !andb_true_iff, !Z.leb_le in T.
  destruct T as [[T1 T2] T3]. auto.
Qed.

Lemma base_size (n : Z) :
  0 <= n <= 15 -> Z.abs (rank64 (base_prob n)) <= 2 ^ 1074.
Proof.
  intros Hn. destruct (Z.eq_dec n 15) as [-> | N].
  - destruct (base_step_facts 14 ltac:(lia)) as [_ [H _]]. exact H.
  - destruct (base_step_facts n ltac:(lia)) as [H _]. exact H.
Qed.

(** The score before the clamp is the base score shifted by an amount
    that does not depend on the number of keywords, up to two
    roundings of numbers below 2. *)
Lemma pre_clamp_error (r : F64.float) (wc : Z) :
  is_ratio r = true ->
  exists T,
    forall n, 0 <= n <= 15 ->
      good64 (pre_clamp n r wc)
      /\ finite_or_zero (pre_clamp n r wc) = true
      /\ Z.abs (rank64 (pre_clamp n r wc) - (rank64 (base_prob n) + T))
         <= 2 ^ 1022.
Proof.
  intros Hr. destruct (caps_term_range r Hr) as [Gc [Fc [C0 C1]]].
  set (c := (r * F64.decimal 3 1)%f64) in *.
  exists ((if wc >? 0 then - rank64 c else 0)
          + (if wc <? 100 then - rank64 (F64.decimal 15 2)
             else if wc >? 300 then rank64 (F64.decimal 10 2) else 0)).
  intros n Hn.
  destruct (base_prob_facts n Hn) as [Gb [Fb _]].
  pose proof (base_size n Hn) as Sb.
  assert (K1 : F64.prec <= 1075) by (vm_compute; discriminate).
  assert (K2 : 1075 < F64.emax - emin F64.prec F64.emax)
    by (vm_compute; reflexivity).
  change (1075 - F64.prec) with 1022 in *.
  assert (P75 : 2 ^ 1075 = 2 * 2 ^ 1074) by reflexivity.
  assert (P22 : 2 ^ 1074 = 4503599627370496 * 2 ^ 1022) by reflexivity.
  assert (P0 : 0 < 2 ^ 1022) by reflexivity.
  assert (B3 : 2 * rank64 (F64.decimal 3 1) <= 2 ^ 1074)
    by (vm_compute; discriminate).
  assert (B15 : 0 <= 4 * rank64 (F64.decimal 15 2) <= 2 ^ 1074)
    by (split; vm_compute; discriminate).
  assert (B10 : 0 <= 4 * rank64 (F64.decimal 10 2) <= 2 ^ 1074)
    by (split; vm_compute; discriminate).
  assert (G15 : good64 (F64.decimal 15 2)) by (split; reflexivity).
  assert (G10 : good64 (F64.decimal 10 2)) by (split; reflexivity).
  assert (Fbz : finite_or_zero (base_prob n) = true)
    by (destruct (base_prob n); try discriminate Fb; reflexivity).
  set (U := 2 ^ 1074) in *. set (E := 2 ^ 1022) in *.
  set (P := 2 ^ 1075) in *.
  (* the caps adjustment *)
  assert (Y : exists y,
             (if wc >? 0 then (base_prob n - c)%f64 else base_prob n) = y
             /\ good64 y /\ finite_or_zero y = true
             /\ 2 * Z.abs (rank64 y - (rank64 (base_prob n)
                                       + (if wc >? 0 then - rank64 c else 0)))
                <= E).
  { eexists. split; [reflexivity |]. destruct (wc >? 0).
    - destruct (SFsub_error F64.prec F64.emax prec_pos prec_lt_emax
                  (base_prob n) c 1075 K1 K2 Gb Fbz Gc Fc ltac:(fold P; lia))
        as [G [F R]].
      fold F64.sub in G, F, R. change (1075 - F64.prec) with 1022 in R.
      fold E in R. split; [exact G |]. split; [exact F |]. lia.
    - split; [exact Gb |]. split; [exact Fbz |]. lia. }
  destruct Y as [y [Ey [Gy [Fy Ry]]]].
  unfold pre_clamp. fold c. rewrite Ey. unfold length_adjust.
  destruct (wc <? 100).
  - destruct (SFsub_error F64.prec F64.emax prec_pos prec_lt_emax
                y (F64.decimal 15 2) 1075 K1 K2 Gy Fy G15 eq_refl
                ltac:(fold P; destruct (wc >? 0); lia)) as [G [F R]].
    fold F64.sub in G, F, R. change (1075 - F64.prec) with 1022 in R.
    fold E in R. split; [exact G |]. split; [exact F |]. lia.
  - destruct (wc >? 300).
    + destruct (SFadd_error F64.prec F64.emax prec_pos prec_lt_emax
                  y (F64.decimal 10 2) 1075 K1 K2 Gy Fy G10 eq_refl
                  ltac:(fold P; destruct (wc >? 0); lia)) as [G [F R]].
      fold F64.add in G, F, R. change (1075 - F64.prec) with 1022 in R.
      fold E in R. split; [exact G |]. split; [exact F |]. lia.
    + split; [exact Gy |]. split; [exact Fy |]. lia.
Qed.

(** One more keyword lowers the score before the clamp by 0.08, up to
    [3 * 2^-52]. *)
Lemma pre_clamp_step (n : Z) (r : F64.float) (wc : Z) :
  0 <= n < 15 -> is_ratio r = true ->
  good64 (pre_clamp n r wc) /\ finite_or_zero (pre_clamp n r wc) = true
  /\ good64 (pre_clamp (n + 1) r wc)
  /\ finite_or_zero (pre_clamp (n + 1) r wc) = true
  /\ Z.abs (100 * (rank64 (pre_clamp n r wc)
                   - rank64 (pre_clamp (n + 1) r wc)) - 8 * 2 ^ 1074)
     <= 300 * 2 ^ 1022.
Proof.
  intros Hn Hr. destruct (pre_clamp_error r wc Hr) as [T HT].
  destruct (HT n ltac:(lia)) as [G1 [F1 R1]].
  destruct (HT (n + 1) ltac:(lia)) as [G2 [F2 R2]].
  destruct (base_step_facts n Hn) as [_ [_ S]].
  repeat split; try assumption; try apply G1; try apply G2.
  set (U := 2 ^ 1074) in *. set (E := 2 ^ 1022) in *. lia.
Qed.

End ScoreStep.

(* ------------------------------------------------------------------ *)
(** * Exact values *)

Section ExactSteps.

Import QArith_base.
Close Scope Q_scope.
Local Open Scope Z_scope.

Abbreviation good64 := (IEEE.good F64.prec F64.emax).
Abbreviation rank64 := (IEEE.rank F64.prec F64.emax).

(** The exact value is the rank times [2^-1074]. *)
Lemma to_Q_rank (x : F64.float) :
  good64 x -> finite_or_zero x = true ->
  (to_Q x == inject_Z (rank64 x) * (1 # 2 ^ 1074))%Q.
Proof.
  intros G F. destruct x as [sx | sx | | sx m e]; try discriminate.
  - reflexivity.
  - pose proof (good_finite_exp _ _ _ _ _ G) as He.
    change (emin F64.prec F64.emax) with (-1074) in He.
    unfold to_Q, IEEE.rank, IEEE.mag.
    change (emin F64.prec F64.emax) with (-1074).
    replace (e - -1074) with (e + 1074) by lia.
    rewrite <- cond_Zopp_mul, inject_Z_mult.
    rewrite <- Qmult_assoc. apply Qmult_comp; [reflexivity |].
    rewrite (Qpower.Zpower_Qpower 2 (e + 1074)) by lia.
    assert (E : (1 # 2 ^ 1074 == inject_Z 2 ^ (-1074))%Q)
      by (vm_compute; reflexivity).
    rewrite E, <- Qpower.Qpower_plus by discriminate.
    replace (e + 1074 + -1074) with e by lia. reflexivity.
Qed.

Lemma small_multiple (z B : Z) (D tol : positive) :
  Z.abs z <= B -> (inject_Z B * (1 # D) <= 1 # tol)%Q ->
  (Qabs.Qabs (inject_Z z * (1 # D)) <= 1 # tol)%Q.
Proof.
  intros Hz HB. apply Qabs.Qabs_Qle_condition.
  unfold Qle, Qmult, Qopp, inject_Z in *. cbn [Qnum Qden] in *.
  rewrite ?Z.mul_1_r, ?Z.mul_1_l, ?Pos.mul_1_l in *.
  assert (H1 : z * Z.pos tol <= B * Z.pos tol)
    by (apply Z.mul_le_mono_nonneg_r; lia).
  assert (H2 : - B * Z.pos tol <= z * Z.pos tol)
    by (apply Z.mul_le_mono_nonneg_r; lia).
  split; lia.
Qed.

(** From ranks to values: a difference of ranks within [B] of
    [0.08 * 2^1074] is a difference of values within [B * 2^-1074] of
    0.08. *)
Lemma step_value (a b B : Z) (tol : positive) :
  Z.abs (100 * (a - b) - 8 * 2 ^ 1074) <= B ->
  (inject_Z B * (1 # 100 * 2 ^ 1074) <= 1 # tol)%Q ->
  (Qabs.Qabs (inject_Z a * (1 # 2 ^ 1074) - inject_Z b * (1 # 2 ^ 1074)
              - (8 # 100)) <= 1 # tol)%Q.
Proof.
  intros H HB.
  assert (E : (inject_Z a * (1 # 2 ^ 1074) - inject_Z b * (1 # 2 ^ 1074)
               - (8 # 100)
               == inject_Z (100 * (a - b) - 8 * 2 ^ 1074)
                  * (1 # 100 * 2 ^ 1074))%Q).
  { set (U := (2 ^ 1074)%positive).
    assert (HU : 2 ^ 1074 = Z.pos U) by reflexivity. rewrite HU.
    unfold Qeq, Qminus, Qplus, Qmult, Qopp, inject_Z. cbn [Qnum Qden].
    rewrite !Pos2Z.inj_mul. ring. }
  rewrite E. now apply small_multiple with (B := B).
Qed.

End ExactSteps.

(* ------------------------------------------------------------------ *)
(** * The properties of the scoring engine *)

Section Properties.

Lemma mul_comm (x y : F64.float) : (x * y)%f64 = (y * x)%f64.
Proof. apply SFmul_comm. Qed.

Lemma spec_probability_eq (n a wc : Z) :
  0 <= n <= 15 -> 0 <= wc ->
  spec_probability n
    (if wc =? 0 then S754_zero false else F64.nearest_quotient a wc) wc
  = clamp (pre_clamp n (F64.nearest_quotient a wc) wc).
Proof.
  intros Hn Hwc.
  destruct (pre_clamp_chain n n (F64.nearest_quotient a wc) wc
              ltac:(lia) ltac:(lia) (nearest_quotient_not_nan a wc))
    as [G _].
  rewrite <- (clamp_spec_clamp _ G). unfold spec_probability. f_equal.
  destruct literals as [_ [_ [_ [_ [_ [_ [_ E30]]]]]]]. rewrite E30.
  rewrite (mul_comm (F64.decimal 8 2)), (mul_comm (F64.decimal 3 1)).
  change (F64.decimal 5 1 - F64.of_int n * F64.decimal 8 2)%f64
    with (base_prob n).
  unfold pre_clamp, length_adjust. rewrite (Z.gtb_ltb wc 300), (Z.gtb_ltb wc 0).
  destruct (base_prob_facts n Hn) as [_ [Fn _]].
  destruct (Z.eqb_spec wc 0) as [-> | Hne].
  - change (S754_zero false * F64.decimal 3 1)%f64 with (S754_zero false).
    rewrite (sub_zero_r _ false Fn). reflexivity.
  - destruct (Z.ltb_spec 0 wc); [reflexivity | lia].
Qed.

(** C1 (amended). On the empty text [score] returns the verdict
    [{label = FAKE, probabilityReal = 0.5, correctiveLinks = []}] at
    once: the scoring arithmetic on the features of the empty text
    would give 0.35 instead. A non-empty text made of whitespace only
    is not short-circuited; it is scored like any other text and gets
    [{FAKE, 0.35, the three corrective links}]. *)
Theorem empty_text_verdict :
  detect_fake_news_mock [] = Ok (FAKE, F64.decimal 5 1, [])
  /\ clamp (pre_clamp (sensational_count []) (spec_caps_ratio [])
              (word_count [])) = F64.decimal 35 2
  /\ forall text, text <> [] -> forallb isspace_char text = true ->
       detect_fake_news_mock text = Ok (FAKE, F64.decimal 35 2, mock_links).
Proof.
  split; [reflexivity |]. split; [vm_compute; reflexivity |].
  intros text Hne Hsp. rewrite (detect_nonempty text Hne).
  destruct (whitespace_features text Hsp) as [-> [-> ->]].
  vm_compute. reflexivity.
Qed.

Lemma empty_text_verdict_witness :
  detect_fake_news_mock (s "   ") = Ok (FAKE, F64.decimal 35 2, mock_links).
Proof.
  apply (proj2 (proj2 empty_text_verdict) (s "   "));
    [discriminate | reflexivity].
Defined.

(** The short-circuit does not extend to whitespace. *)
Lemma whitespace_text_not_short_circuited :
  ~ (forall text, forallb isspace_char text = true ->
       detect_fake_news_mock text = Ok (FAKE, F64.decimal 5 1, [])).
Proof.
  intros H. specialize (H (s " ") eq_refl). vm_compute in H. discriminate.
Qed.

(** C2 (amended). For every non-empty text, [correctiveLinks] is
    non-empty if and only if the label is FAKE; whenever it is non-empty
    it is exactly the fixed three-entry list (Fact-Check /
    trustedscience.org, Federal Reserve / federalreserve.gov, Media
    Literacy / medialiteracy.org) in that order. On the empty text the
    label is FAKE and [correctiveLinks] is empty. *)
Theorem corrective_links_iff_fake :
  map url mock_links
  = [ s "https://trustedscience.org/fact-check";
      s "https://federalreserve.gov/latest-reports";
      s "https://medialiteracy.org/clickbait-guide" ]
  /\ forall text, exists label p links,
       detect_fake_news_mock text = Ok (label, p, links)
       /\ (text <> [] -> (links <> [] <-> label = FAKE))
       /\ (links <> [] -> links = mock_links)
       /\ (text = [] -> label = FAKE /\ links = []).
Proof.
  split; [reflexivity |]. intros text. destruct text as [|c t].
  - exists FAKE, (F64.decimal 5 1), []. repeat split; congruence.
  - rewrite (detect_nonempty (c :: t)) by discriminate.
    set (p := clamp _). exists (label_of p), p, (links_of (label_of p)).
    split; [reflexivity |]. unfold label_of, links_of, FAKE.
    destruct (F64.leb (F64.decimal 5 1) p); cbn [Z.eqb];
      repeat split; try congruence; try discriminate.
Qed.

(** The empty text is labelled FAKE without links. *)
Lemma empty_text_fake_without_links :
  ~ (forall text label p links,
       detect_fake_news_mock text = Ok (label, p, links) ->
       (links <> [] <-> label = FAKE)).
Proof.
  intros H. specialize (H [] FAKE (F64.decimal 5 1) [] eq_refl).
  destruct H as [_ H]. now apply (H eq_refl).
Qed.

(** C3. For every text, the empty one and the adversarial ones included,
    the returned [probabilityReal] lies in the closed interval
    [[0.05, 0.95]]. *)
Theorem probability_in_range (text : str) :
  exists label p links,
    detect_fake_news_mock text = Ok (label, p, links)
    /\ F64.leb (F64.decimal 5 2) p = true
    /\ F64.leb p (F64.decimal 95 2) = true.
Proof.
  destruct text as [|c t].
  - exists 0, (F64.decimal 5 1), []. repeat split; vm_compute; reflexivity.
  - rewrite (detect_nonempty (c :: t)) by discriminate.
    set (z := pre_clamp _ _ _).
    exists (label_of (clamp z)), (clamp z), (links_of (label_of (clamp z))).
    split; [reflexivity | apply clamp_bounds].
Qed.

(** C4. For every text the label is REAL if and only if the returned
    [probabilityReal] is at least 0.5, with the one exception of the
    empty text, which gets the label FAKE at [probabilityReal] exactly
    0.5. *)
Theorem label_iff_threshold (text : str) :
  exists label p links,
    detect_fake_news_mock text = Ok (label, p, links)
    /\ (label = REAL \/ label = FAKE)
    /\ (text <> [] -> (label = REAL <-> F64.leb (F64.decimal 5 1) p = true))
    /\ (text = [] ->
        label = FAKE /\ p = F64.decimal 5 1
        /\ F64.leb (F64.decimal 5 1) p = true).
Proof.
  destruct text as [|c t].
  - exists FAKE, (F64.decimal 5 1), []. repeat split; try congruence.
    now right.
  - rewrite (detect_nonempty (c :: t)) by discriminate.
    set (p := clamp _). exists (label_of p), p, (links_of (label_of p)).
    split; [reflexivity |]. unfold label_of, REAL, FAKE.
    destruct (F64.leb (F64.decimal 5 1) p);
      repeat split; try congruence; try discriminate; auto.
Qed.

(** C5. For every non-empty text, [probabilityReal] is computed from the
    base 0.5 by subtracting 0.08 x sensationalCount, subtracting
    0.30 x capsRatio (the ratio being 0 without words), subtracting 0.15
    below 100 words or adding 0.10 above 300 words, with no length
    adjustment from 100 to 300 words inclusive, and clamping the result
    to [[0.05, 0.95]]. *)
Theorem scoring_formula (text : str) :
  text <> [] ->
  exists label links,
    detect_fake_news_mock text
    = Ok (label,
          spec_probability (sensational_count text) (spec_caps_ratio text)
            (word_count text),
          links).
Proof.
  intros Hne. rewrite (detect_nonempty text Hne). unfold spec_caps_ratio.
  rewrite (spec_probability_eq (sensational_count text)
             (all_caps_words text) (word_count text)
             (sensational_count_range text) (word_count_nonneg text)).
  eexists. eexists. reflexivity.
Qed.

Lemma scoring_formula_witness :
  exists label links,
    detect_fake_news_mock real_example
    = Ok (label,
          spec_probability (sensational_count real_example)
            (spec_caps_ratio real_example) (word_count real_example),
          links).
Proof. apply (scoring_formula real_example). discriminate. Defined.

(** C6. For every text, [sensationalCount] is the number of entries of
    the fixed table of 15 distinct phrases that occur in the text as a
    case-insensitive substring; an entry counts once however often it
    occurs. *)
Theorem sensational_count_spec (text : str) :
  List.length sensational_words = 15%nat
  /\ NoDup sensational_words
  /\ exists matched,
       NoDup matched
       /\ (forall kw, In kw matched <->
                      In kw sensational_words /\ occurs_ci kw text)
       /\ sensational_count text = len matched.
Proof.
  split; [reflexivity |]. split; [exact keywords_nodup |].
  exists (filter (fun word => contains word (lower text)) sensational_words).
  split; [apply NoDup_filter; exact keywords_nodup |].
  split; [| apply sum_ones_length].
  intros kw. rewrite filter_In. split.
  - intros [Hin Hc]. split; [exact Hin |].
    now apply (contains_lower_occurs kw text (keyword_lower kw Hin)).
  - intros [Hin Ho]. split; [exact Hin |].
    now apply (contains_lower_occurs kw text (keyword_lower kw Hin)).
Qed.

(** C7 (amended). For every text, [capsRatio] is the number of
    whitespace-delimited tokens that contain an upper-case letter and
    no lower-case or title-case letter (digits, punctuation, symbols
    and other caseless characters do not matter) and are longer than 2
    characters, divided by [wordCount], the number of
    whitespace-delimited tokens, and it is 0 when [wordCount] is 0:
    the code then skips the division, which would raise, and leaves the
    score as it is, which is the adjustment for a ratio of 0. The
    criterion is that of the loop of [isupper] whatever the characters
    and their classes are (first part); up to U+00FF no character is
    title-case. *)
Theorem caps_ratio_spec (text : str) :
  (forall (C : Type) (islower istitle isupper : C -> bool) (w : list C),
     isupper_loop islower istitle isupper false w = true <->
     (exists c, In c w /\ isupper c = true)
     /\ (forall c, In c w -> islower c = false /\ istitle c = false))
  /\ word_count text = len (split text)
  /\ all_caps_words text = len (filter is_caps_token (split text))
  /\ (forall w, is_caps_token w = true <-> caps_token w)
  /\ (0 < word_count text -> caps_ratio text = Ok (caps_token_ratio text))
  /\ (word_count text = 0 ->
      caps_token_ratio text = S754_zero false
      /\ caps_ratio text = Raise ZeroDivisionError)
  /\ (text <> [] ->
      exists label links,
        detect_fake_news_mock text
        = Ok (label,
              clamp (length_adjust (word_count text)
                       (base_prob (sensational_count text)
                        - caps_token_ratio text * F64.decimal 3 1)%f64),
              links)).
Proof.
  split.
  { intros C lo ti up w. rewrite isupper_loop_spec. split.
    - intros [[H | H] Hall]; [discriminate | auto].
    - intros [H Hall]. auto. }
  split; [reflexivity |]. split; [apply all_caps_words_filter |].
  split; [exact is_caps_token_spec |].
  unfold caps_token_ratio. fold (word_count text).
  rewrite <- all_caps_words_filter.
  split; [| split].
  - intros Hp. unfold caps_ratio, F64.int_truediv.
    destruct (Z.eqb_spec (word_count text) 0); [lia | reflexivity].
  - intros Hz. rewrite Hz. split; [reflexivity |].
    unfold caps_ratio, F64.int_truediv. now rewrite Hz.
  - intros Hne. rewrite (detect_nonempty text Hne).
    do 2 eexists. f_equal. f_equal. f_equal. f_equal.
    unfold pre_clamp. pose proof (word_count_nonneg text) as Hw.
    rewrite (Z.gtb_ltb _ 0).
    destruct (Z.ltb_spec 0 (word_count text)) as [Hp | Hp];
      destruct (Z.eqb_spec (word_count text) 0) as [Hz | Hz]; try lia.
    + reflexivity.
    + destruct (base_prob_facts (sensational_count text)
                  (sensational_count_range text)) as [_ [Fb _]].
      change (S754_zero false * F64.decimal 3 1)%f64 with (S754_zero false).
      now rewrite sub_zero_r.
Qed.

(** The tokens [40] followed by the degree sign and [C], and [DNA]
    followed by the control character U+007F, count for the code:
    [isupper] holds of them. They are not made entirely of upper-case
    letters, digits and punctuation marks: the degree sign is a symbol
    (category So) and U+007F a control character (category Cc). In
    both texts no token at all is made of such characters only, so
    that the ratio first described is 0. *)
Lemma symbol_tokens_are_caps :
  let text1 := s "Temperatures hit 40" ++ ["176"%char] ++ s "C today" in
  let text2 := s "the DNA" ++ ["127"%char] ++ s " sample" in
  (caps_ratio text1 = Ok (F64.decimal 25 2)
   /\ filter upper_digit_punct (split text1) = []
   /\ worded_caps_ratio text1 = S754_zero false
   /\ caps_ratio text1 <> Ok (worded_caps_ratio text1))
  /\ (caps_ratio text2 = Ok (F64.nearest_quotient 1 3)
      /\ filter upper_digit_punct (split text2) = []
      /\ worded_caps_ratio text2 = S754_zero false
      /\ caps_ratio text2 <> Ok (worded_caps_ratio text2)).
Proof.
  split; (split; [vm_compute; reflexivity |]);
    (split; [vm_compute; reflexivity |]);
    (split; [vm_compute; reflexivity |]); vm_compute; discriminate.
Qed.

(** C8. [score] is total: every text, the empty and the whitespace-only
    ones included, yields a verdict and never an exception; in
    particular the division of the caps ratio, which would raise on a
    zero [wordCount], is not reached then. *)
Theorem detect_total (text : str) :
  (exists v, detect_fake_news_mock text = Ok v)
  /\ (forall e, detect_fake_news_mock text <> Raise e)
  /\ (caps_ratio text = Raise ZeroDivisionError <-> word_count text = 0).
Proof.
  assert (H : exists v, detect_fake_news_mock text = Ok v).
  { destruct text as [|c t]; [eexists; reflexivity |].
    rewrite (detect_nonempty (c :: t)) by discriminate. eexists. reflexivity. }
  split; [exact H |]. split.
  - destruct H as [v ->]. discriminate.
  - unfold caps_ratio, F64.int_truediv.
    destruct (Z.eqb_spec (word_count text) 0); split; congruence.
Qed.

(** C9. Every text of more than 300 whitespace-delimited tokens in which
    no phrase of the table occurs as a case-insensitive substring and no
    token longer than 2 characters is fully upper-case gets
    [probabilityReal] exactly 0.5 + 0.10 = 0.60, the label REAL and no
    corrective links. *)
Theorem long_clean_article (text : str) :
  300 < word_count text ->
  (forall kw, In kw sensational_words -> ~ occurs_ci kw text) ->
  (forall tok, In tok (split text) -> ~ caps_token tok) ->
  detect_fake_news_mock text = Ok (REAL, F64.decimal 60 2, [])
  /\ (F64.decimal 5 1 + F64.decimal 10 2)%f64 = F64.decimal 60 2.
Proof.
  intros Hwc Hkw Hcaps. split; [| vm_compute; reflexivity].
  assert (Hne : text <> []) by (intros ->; vm_compute in Hwc; discriminate).
  rewrite (detect_nonempty text Hne).
  apply no_keyword_count in Hkw. apply no_caps_count in Hcaps.
  rewrite Hkw, Hcaps. unfold pre_clamp, length_adjust.
  rewrite (Z.gtb_ltb _ 0), (Z.gtb_ltb _ 300).
  destruct (Z.ltb_spec 0 (word_count text)); [| lia].
  destruct (Z.ltb_spec (word_count text) 100); [lia |].
  destruct (Z.ltb_spec 300 (word_count text)); [| lia].
  change (F64.nearest_quotient 0 (word_count text)) with (S754_zero false).
  vm_compute. reflexivity.
Qed.

Lemma long_clean_article_witness :
  detect_fake_news_mock (List.concat (repeat (s "word ") 350))
  = Ok (REAL, F64.decimal 60 2, [])
  /\ (F64.decimal 5 1 + F64.decimal 10 2)%f64 = F64.decimal 60 2.
Proof.
  apply (long_clean_article (List.concat (repeat (s "word ") 350))).
  - vm_compute. reflexivity.
  - apply no_keyword_count. vm_compute. reflexivity.
  - apply no_caps_count. vm_compute. reflexivity.
Defined.

End Properties.

(* ------------------------------------------------------------------ *)
(** * The step of one keyword *)

Section KeywordStep.

Import QArith_base.
Close Scope Q_scope.
Local Open Scope Z_scope.

Abbreviation good64 := (IEEE.good F64.prec F64.emax).
Abbreviation rank64 := (IEEE.rank F64.prec F64.emax).

(** Outside the range of a ratio the step can vanish: a caps term of
    about [3 * 10^17] absorbs the keyword term. *)
Remark large_ratio_absorbs_step :
  pre_clamp 1 (F64.of_int (2 ^ 60)) 200 = pre_clamp 0 (F64.of_int (2 ^ 60)) 200
  /\ is_ratio (F64.of_int (2 ^ 60)) = false.
Proof. split; vm_compute; reflexivity. Qed.

(** C10 (amended). For a fixed [capsRatio] between 0 and 1 and a fixed
    [wordCount], each additional matched keyword, from 0 up to 15,
    strictly lowers the score before the clamp, by 0.08 up to the
    rounding of binary64: the exact step differs from 0.08 by at most
    [10^-15]. So, for any fixed [capsRatio] and [wordCount], the
    clamped [probabilityReal] is monotonically non-increasing in
    [sensationalCount] over its range 0..15. *)
Theorem score_monotone (n m : Z) (r : F64.float) (wc : Z) :
  0 <= n <= m -> m <= 15 ->
  F64.leb (clamp (pre_clamp m r wc)) (clamp (pre_clamp n r wc)) = true
  /\ (is_nan r = false ->
      F64.leb (pre_clamp m r wc) (pre_clamp n r wc) = true)
  /\ (is_ratio r = true -> n < 15 ->
      F64.ltb (pre_clamp (n + 1) r wc) (pre_clamp n r wc) = true
      /\ finite_or_zero (pre_clamp n r wc) = true
      /\ finite_or_zero (pre_clamp (n + 1) r wc) = true
      /\ (Qabs.Qabs (to_Q (pre_clamp n r wc)
                     - to_Q (pre_clamp (n + 1) r wc) - (8 # 100))
          <= 1 # 10 ^ 15)%Q).
Proof.
  intros Hnm Hm. split; [| split].
  - destruct (is_nan r) eqn:Hr.
    + destruct r; try discriminate. unfold pre_clamp.
      destruct (wc >? 0) eqn:Hw.
      * assert (E : forall x, (x - S754_nan * F64.decimal 3 1)%f64 = S754_nan)
          by (intros x; destruct x; reflexivity).
        rewrite !E. unfold length_adjust.
        destruct (wc <? 100); [vm_compute; reflexivity |].
        destruct (wc >? 300); vm_compute; reflexivity.
      * pose proof (pre_clamp_chain n m (S754_zero false) wc Hnm Hm eq_refl)
          as [G1 [G2 R]].
        unfold pre_clamp in G1, G2, R. rewrite Hw in G1, G2, R.
        now apply clamp_mono.
    + destruct (pre_clamp_chain n m r wc Hnm Hm Hr) as [G1 [G2 R]].
      now apply clamp_mono.
  - intros Hr. destruct (pre_clamp_chain n m r wc Hnm Hm Hr) as [G1 [G2 R]].
    rewrite (leb_rank G1 G2). now apply Z.leb_le.
  - intros Hr Hn.
    destruct (pre_clamp_step n r wc ltac:(lia) Hr) as [G1 [F1 [G2 [F2 S]]]].
    assert (P : 300 * 2 ^ 1022 < 8 * 2 ^ 1074) by reflexivity.
    split; [| split; [exact F1 | split; [exact F2 |]]].
    + rewrite (ltb_rank G2 G1). apply Z.ltb_lt.
      set (U := 2 ^ 1074) in *. set (E := 2 ^ 1022) in *. lia.
    + rewrite (to_Q_rank _ G1 F1), (to_Q_rank _ G2 F2).
      apply (step_value _ _ (300 * 2 ^ 1022)); [exact S |].
      vm_compute. discriminate.
Qed.

Lemma score_monotone_witness :
  F64.leb (clamp (pre_clamp 3 (F64.decimal 25 2) 200))
          (clamp (pre_clamp 2 (F64.decimal 25 2) 200)) = true
  /\ F64.leb (pre_clamp 3 (F64.decimal 25 2) 200)
             (pre_clamp 2 (F64.decimal 25 2) 200) = true
  /\ F64.ltb (pre_clamp (2 + 1) (F64.decimal 25 2) 200)
             (pre_clamp 2 (F64.decimal 25 2) 200) = true
  /\ finite_or_zero (pre_clamp 2 (F64.decimal 25 2) 200) = true
  /\ finite_or_zero (pre_clamp (2 + 1) (F64.decimal 25 2) 200) = true
  /\ (Qabs.Qabs (to_Q (pre_clamp 2 (F64.decimal 25 2) 200)
                 - to_Q (pre_clamp (2 + 1) (F64.decimal 25 2) 200)
                 - (8 # 100))
      <= 1 # 10 ^ 15)%Q.
Proof.
  destruct (score_monotone 2 3 (F64.decimal 25 2) 200) as [A [B C]];
    [lia | lia |].
  split; [exact A |]. split; [apply B; reflexivity |].
  apply C; [vm_compute; reflexivity | lia].
Defined.

(** From 2 to 3 keywords, without upper-case tokens and with 200
    words, the score goes from 0.33999999999999997 to 0.26: the step is
    not the number 0.08, whether taken as a binary64 difference, as a
    binary64 subtraction or addition of 0.08, or exactly. *)
Lemma keyword_step_is_not_exact :
  let p2 := pre_clamp 2 (S754_zero false) 200 in
  let p3 := pre_clamp 3 (S754_zero false) 200 in
  (p2 - p3)%f64 <> F64.decimal 8 2
  /\ (p2 - F64.decimal 8 2)%f64 <> p3
  /\ (p3 + F64.decimal 8 2)%f64 <> p2
  /\ IEEE.rank F64.prec F64.emax p2 - IEEE.rank F64.prec F64.emax p3
     <> IEEE.rank F64.prec F64.emax (F64.decimal 8 2).
Proof. repeat split; vm_compute; discriminate. Qed.

End KeywordStep.
(* ------------------------------------------------------------------ *)
(** * Further properties of the detector *)

Section Verdicts.

Abbreviation good64 := (IEEE.good F64.prec F64.emax).
Abbreviation rank64 := (IEEE.rank F64.prec F64.emax).

Lemma bound_short (wc : Z) :
  wc < 100 ->
  F64.leb (F64.decimal 5 1) (clamp (length_adjust wc (base_prob 0))) = false
  /\ clamp (length_adjust wc (base_prob 0)) = F64.decimal 35 2.
Proof.
  intros H. unfold length_adjust. destruct (Z.ltb_spec wc 100); [| lia].
  split; vm_compute; reflexivity.
Qed.

Lemma bound_any_length (wc : Z) :
  F64.leb (clamp (length_adjust wc (base_prob 0))) (F64.decimal 60 2) = true.
Proof.
  unfold length_adjust. destruct (wc <? 100); [vm_compute; reflexivity |].
  destruct (wc >? 300); vm_compute; reflexivity.
Qed.

Lemma bound_two_keywords (wc : Z) :
  F64.leb (F64.decimal 5 1) (clamp (length_adjust wc (base_prob 2))) = false.
Proof.
  unfold length_adjust. destruct (wc <? 100); [vm_compute; reflexivity |].
  destruct (wc >? 300); vm_compute; reflexivity.
Qed.

Lemma bound_one_keyword (wc : Z) :
  wc <= 300 ->
  F64.leb (F64.decimal 5 1) (clamp (length_adjust wc (base_prob 1))) = false.
Proof.
  intros H. unfold length_adjust. rewrite (Z.gtb_ltb wc 300).
  destruct (wc <? 100); [vm_compute; reflexivity |].
  destruct (Z.ltb_spec 300 wc); [lia |]. vm_compute. reflexivity.
Qed.

Lemma bound_floor (k wc : Z) :
  k = 7 \/ (k = 6 /\ wc <= 300) \/ (k = 4 /\ wc < 100) ->
  F64.leb (length_adjust wc (base_prob k)) (F64.decimal 5 2) = true.
Proof.
  unfold length_adjust. rewrite (Z.gtb_ltb wc 300).
  intros [-> | [[-> H] | [-> H]]].
  - destruct (wc <? 100); [vm_compute; reflexivity |].
    destruct (300 <? wc); vm_compute; reflexivity.
  - destruct (wc <? 100); [vm_compute; reflexivity |].
    destruct (Z.ltb_spec 300 wc); [lia |]. vm_compute. reflexivity.
  - destruct (Z.ltb_spec wc 100); [| lia]. vm_compute. reflexivity.
Qed.

(** X1. Every non-empty text of fewer than 100 words is labelled FAKE
    and gets the three corrective links; its [prob_real] is at most
    0.35. *)
Theorem short_text_is_fake (text : str) :
  text <> [] -> word_count text < 100 ->
  exists p,
    detect_fake_news_mock text = Ok (FAKE, p, mock_links)
    /\ F64.leb p (F64.decimal 35 2) = true.
Proof.
  intros Hne Hwc. rewrite (detect_nonempty text Hne).
  destruct (pre_clamp_le (sensational_count text) 0
              (F64.nearest_quotient (all_caps_words text) (word_count text))
              (word_count text)
              ltac:(pose proof (sensational_count_range text); lia)
              ltac:(pose proof (sensational_count_range text); lia)
              (nearest_quotient_sign _ _)) as [Gz [Gb R]].
  destruct (bound_short (word_count text) Hwc) as [Hb Eb].
  destruct (clamp_below_half _ _ Gz Gb R Hb) as [L M].
  rewrite L. rewrite Eb in M. eexists. split; [reflexivity | exact M].
Qed.

Lemma short_text_is_fake_witness :
  exists p,
    detect_fake_news_mock real_example = Ok (FAKE, p, mock_links)
    /\ F64.leb p (F64.decimal 35 2) = true.
Proof.
  apply (short_text_is_fake real_example);
    [discriminate | vm_compute; reflexivity].
Defined.

Lemma score_at_most_060 (text : str) :
  F64.leb
    (clamp (pre_clamp (sensational_count text)
              (F64.nearest_quotient (all_caps_words text) (word_count text))
              (word_count text)))
    (F64.decimal 60 2) = true.
Proof.
  destruct (pre_clamp_le (sensational_count text) 0
              (F64.nearest_quotient (all_caps_words text) (word_count text))
              (word_count text)
              ltac:(pose proof (sensational_count_range text); lia)
              ltac:(pose proof (sensational_count_range text); lia)
              (nearest_quotient_sign _ _)) as [Gz [Gb R]].
  destruct (clamp_rank _ Gz) as [Cz _]. destruct (clamp_rank _ Gb) as [Cb _].
  assert (G60 : good64 (F64.decimal 60 2)) by (split; reflexivity).
  pose proof (rank_le_leb _ _ Cz Cb (clamp_mono _ _ Gz Gb R)) as H1.
  pose proof (rank_le_leb _ _ Cb G60 (bound_any_length _)) as H2.
  rewrite (leb_rank Cz G60). apply Z.leb_le. lia.
Qed.

(** X2. No text gets a [prob_real] above 0.60: the upper bound 0.95 of
    the clamp is never reached. *)
Theorem probability_at_most_060 (text : str) :
  exists label p links,
    detect_fake_news_mock text = Ok (label, p, links)
    /\ F64.leb p (F64.decimal 60 2) = true.
Proof.
  destruct text as [|c t].
  - exists 0, (F64.decimal 5 1), []. split; vm_compute; reflexivity.
  - rewrite (detect_nonempty (c :: t)) by discriminate.
    do 3 eexists. split; [reflexivity | apply score_at_most_060].
Qed.

(** X3. A text is labelled REAL only if it has at least 100 words and
    either no keyword at all, or one keyword and more than 300 words;
    its [prob_real] then lies between 0.5 and 0.60 and it gets no
    link. *)
Theorem real_verdict_needs (text : str) (p : F64.float)
    (links : list LinkRef) :
  detect_fake_news_mock text = Ok (REAL, p, links) ->
  100 <= word_count text
  /\ (sensational_count text = 0
      \/ (sensational_count text = 1 /\ 300 < word_count text))
  /\ links = []
  /\ F64.leb (F64.decimal 5 1) p = true
  /\ F64.leb p (F64.decimal 60 2) = true.
Proof.
  intros E.
  destruct text as [|c t]; [inversion E |].
  pose proof (score_at_most_060 (c :: t)) as B.
  rewrite (detect_nonempty (c :: t)) in E by discriminate.
  injection E as HL HP HK.
  pose proof (sensational_count_range (c :: t)) as Rn.
  set (n := sensational_count (c :: t)) in *.
  set (wc := word_count (c :: t)) in *.
  set (r := F64.nearest_quotient (all_caps_words (c :: t)) wc) in *.
  assert (Hfake : forall k, 0 <= k <= n ->
            F64.leb (F64.decimal 5 1) (clamp (length_adjust wc (base_prob k)))
            = false -> False).
  { intros k Hk Hb.
    destruct (pre_clamp_le n k r wc Hk ltac:(lia) (nearest_quotient_sign _ _))
      as [Gz [Gb R]].
    destruct (clamp_below_half _ _ Gz Gb R Hb) as [L _].
    rewrite L in HL. discriminate. }
  repeat split.
  - destruct (Z_lt_ge_dec wc 100) as [Hs | Hs]; [| lia].
    exfalso. apply (Hfake 0); [lia |]. apply (bound_short wc Hs).
  - destruct (Z_le_gt_dec 2 n) as [H2 | H2].
    { exfalso. apply (Hfake 2); [lia |]. apply bound_two_keywords. }
    destruct (Z.eq_dec n 0) as [E0 | E0]; [now left | right].
    split; [lia |].
    destruct (Z_le_gt_dec wc 300) as [Hw | Hw]; [| lia].
    exfalso. apply (Hfake 1); [lia |]. now apply bound_one_keyword.
  - rewrite <- HK, HL. reflexivity.
  - rewrite <- HP. unfold label_of in HL.
    destruct (F64.leb (F64.decimal 5 1) (clamp (pre_clamp n r wc)));
      [reflexivity | discriminate].
  - rewrite <- HP. exact B.
Qed.

Lemma real_verdict_needs_witness :
  100 <= word_count (List.concat (repeat (s "word ") 350))
  /\ (sensational_count (List.concat (repeat (s "word ") 350)) = 0
      \/ (sensational_count (List.concat (repeat (s "word ") 350)) = 1
          /\ 300 < word_count (List.concat (repeat (s "word ") 350))))
  /\ @nil LinkRef = []
  /\ F64.leb (F64.decimal 5 1) (F64.decimal 60 2) = true
  /\ F64.leb (F64.decimal 60 2) (F64.decimal 60 2) = true.
Proof.
  apply (real_verdict_needs (List.concat (repeat (s "word ") 350))).
  vm_compute. reflexivity.
Defined.

(** X4. A text of 100 to 300 words, both bounds included, without
    keyword and without upper-case token of more than two characters is
    labelled REAL with [prob_real] exactly 0.5 and gets no link. *)
Theorem mid_length_clean_article (text : str) :
  100 <= word_count text <= 300 ->
  sensational_count text = 0 -> all_caps_words text = 0 ->
  detect_fake_news_mock text = Ok (REAL, F64.decimal 5 1, []).
Proof.
  intros Hwc Hkw Hcaps.
  assert (Hne : text <> [])
    by (intros ->; change (word_count []) with 0 in Hwc; lia).
  rewrite (detect_nonempty text Hne), Hkw, Hcaps.
  unfold pre_clamp, length_adjust.
  rewrite (Z.gtb_ltb _ 0), (Z.gtb_ltb _ 300).
  destruct (Z.ltb_spec 0 (word_count text)); [| lia].
  destruct (Z.ltb_spec (word_count text) 100); [lia |].
  destruct (Z.ltb_spec 300 (word_count text)); [lia |].
  change (F64.nearest_quotient 0 (word_count text)) with (S754_zero false).
  vm_compute. reflexivity.
Qed.

Lemma mid_length_clean_article_witness :
  detect_fake_news_mock (List.concat (repeat (s "word ") 100))
  = Ok (REAL, F64.decimal 5 1, [])
  /\ detect_fake_news_mock (List.concat (repeat (s "word ") 300))
     = Ok (REAL, F64.decimal 5 1, []).
Proof.
  split.
  - apply (mid_length_clean_article (List.concat (repeat (s "word ") 100)));
      vm_compute; intuition discriminate.
  - apply (mid_length_clean_article (List.concat (repeat (s "word ") 300)));
      vm_compute; intuition discriminate.
Defined.

(** X5. Upper-case tokens never raise the score: the [prob_real] of a
    non-empty text is at most the one obtained from its keyword count
    and its length alone. *)
Theorem caps_never_raise (text : str) :
  text <> [] ->
  exists label p links,
    detect_fake_news_mock text = Ok (label, p, links)
    /\ F64.leb p (clamp (length_adjust (word_count text)
                           (base_prob (sensational_count text)))) = true.
Proof.
  intros Hne. rewrite (detect_nonempty text Hne).
  do 3 eexists. split; [reflexivity |].
  destruct (pre_clamp_upper (sensational_count text)
              (F64.nearest_quotient (all_caps_words text) (word_count text))
              (word_count text) (sensational_count_range text)
              (nearest_quotient_sign _ _)) as [Gz [Gb R]].
  now apply clamp_mono.
Qed.

Lemma caps_never_raise_witness :
  exists label p links,
    detect_fake_news_mock fake_example = Ok (label, p, links)
    /\ F64.leb p (clamp (length_adjust (word_count fake_example)
                           (base_prob (sensational_count fake_example))))
       = true.
Proof. apply (caps_never_raise fake_example). discriminate. Defined.

(** X6. Keywords saturate: with 7 keywords or more, with 6 and at most
    300 words, or with 4 and fewer than 100 words, the verdict is
    FAKE with [prob_real] exactly 0.05, the floor of the clamp, and the
    three links. *)
Theorem keyword_saturation (text : str) :
  7 <= sensational_count text
  \/ (6 <= sensational_count text /\ word_count text <= 300)
  \/ (4 <= sensational_count text /\ word_count text < 100) ->
  detect_fake_news_mock text = Ok (FAKE, F64.decimal 5 2, mock_links).
Proof.
  intros H. pose proof (sensational_count_range text) as Rn.
  assert (Hne : text <> []).
  { intros ->. change (sensational_count []) with 0 in H. lia. }
  rewrite (detect_nonempty text Hne).
  assert (E : clamp (pre_clamp (sensational_count text)
                       (F64.nearest_quotient (all_caps_words text)
                          (word_count text)) (word_count text))
              = F64.decimal 5 2).
  { assert (Hk : exists k, 0 <= k <= sensational_count text
                           /\ (k = 7 \/ (k = 6 /\ word_count text <= 300)
                               \/ (k = 4 /\ word_count text < 100))).
    { destruct H as [H | [[H1 H2] | [H1 H2]]];
        [exists 7 | exists 6 | exists 4]; intuition lia. }
    destruct Hk as [k [Hk Hc]].
    destruct (pre_clamp_le (sensational_count text) k
                (F64.nearest_quotient (all_caps_words text) (word_count text))
                (word_count text) Hk ltac:(lia) (nearest_quotient_sign _ _))
      as [Gz [Gb R]].
    exact (clamp_floor _ _ Gz Gb R (bound_floor k (word_count text) Hc)). }
  rewrite E. reflexivity.
Qed.

Lemma keyword_saturation_witness :
  detect_fake_news_mock fake_example = Ok (FAKE, F64.decimal 5 2, mock_links).
Proof.
  apply (keyword_saturation fake_example). right. right.
  split; vm_compute; [discriminate | reflexivity].
Defined.

Lemma detect_monotone_in_keywords_witness :
  exists l1 p1 k1 l2 p2 k2,
    detect_fake_news_mock (s "a plain sentence") = Ok (l1, p1, k1)
    /\ detect_fake_news_mock (s "a shocking scandal") = Ok (l2, p2, k2)
    /\ F64.leb p2 p1 = true.
Proof.
  apply (detect_monotone_in_keywords (s "a plain sentence")
           (s "a shocking scandal"));
    try discriminate; vm_compute; try reflexivity; discriminate.
Defined.

End Verdicts.

(* ------------------------------------------------------------------ *)
(** * Whitespace around a text *)

Section Padding.

Lemma split_leading (ws t : str) :
  forallb isspace_char ws = true -> split (ws ++ t) = split t.
Proof.
  induction ws as [|c ws IH]; [reflexivity |]. cbn [forallb].
  rewrite andb_true_iff. intros [Hc Hws].
  change ((c :: ws) ++ t) with (c :: (ws ++ t)).
  rewrite split_cons, Hc. auto.
Qed.

Lemma split_trailing (t ws : str) :
  forallb isspace_char ws = true -> split (t ++ ws) = split t.
Proof.
  intros Hws. induction t as [|c t IH].
  - apply split_space. exact Hws.
  - change ((c :: t) ++ ws) with (c :: (t ++ ws)).
    rewrite !split_cons, IH.
    destruct (isspace_char c); [reflexivity |].
    destruct t as [|c' t']; [| reflexivity].
    cbn [app]. destruct ws as [|b ws']; [reflexivity |].
    cbn [forallb] in Hws. apply andb_true_iff in Hws. destruct Hws as [Hb _].
    rewrite Hb. reflexivity.
Qed.

Lemma startswith_space_false (kw ws : str) :
  ends_nonspace kw = true -> forallb isspace_char ws = true ->
  startswith kw ws = false.
Proof.
  revert ws. induction kw as [|a kw IH]; intros ws Hk Hws; [discriminate |].
  destruct ws as [|b ws]; [reflexivity |].
  cbn [forallb] in Hws. apply andb_true_iff in Hws. destruct Hws as [Hb Hws].
  cbn [startswith]. destruct kw as [|c2 rest].
  - cbn [ends_nonspace] in Hk. apply negb_true_iff in Hk.
    destruct (Ascii.eqb_spec a b) as [-> | _]; [congruence | reflexivity].
  - rewrite (IH ws Hk Hws). apply andb_false_r.
Qed.

Lemma startswith_trailing (kw u ws : str) :
  ends_nonspace kw = true -> forallb isspace_char ws = true ->
  startswith kw (u ++ ws) = startswith kw u.
Proof.
  intros Hk Hws. revert kw Hk.
  induction u as [|b u IH]; intros kw Hk.
  - cbn [app]. rewrite (startswith_space_false kw ws Hk Hws).
    destruct kw; [discriminate | reflexivity].
  - destruct kw as [|a kw]; [discriminate |].
    change ((b :: u) ++ ws) with (b :: (u ++ ws)). cbn [startswith].
    destruct kw as [|c2 rest]; [reflexivity |].
    now rewrite (IH (c2 :: rest) Hk).
Qed.

Lemma contains_trailing (kw u ws : str) :
  ends_nonspace kw = true -> forallb isspace_char ws = true ->
  contains kw (u ++ ws) = contains kw u.
Proof.
  intros Hk Hws. induction u as [|b u IH].
  - cbn [app]. transitivity false.
    + clear -Hk Hws. induction ws as [|b ws IH].
      * destruct kw; [discriminate | reflexivity].
      * cbn [contains]. rewrite (startswith_space_false kw (b :: ws) Hk Hws).
        cbn [forallb] in Hws. apply andb_true_iff in Hws.
        now rewrite (IH (proj2 Hws)).
    + destruct kw; [discriminate | reflexivity].
  - change ((b :: u) ++ ws) with (b :: (u ++ ws)). cbn [contains].
    change (b :: (u ++ ws)) with ((b :: u) ++ ws).
    now rewrite (startswith_trailing kw (b :: u) ws Hk Hws), IH.
Qed.

Lemma contains_leading (kw ws u : str) :
  match kw with a :: _ => negb (isspace_char a) | [] => false end = true ->
  forallb isspace_char ws = true ->
  contains kw (ws ++ u) = contains kw u.
Proof.
  destruct kw as [|a kw]; [discriminate |]. intros Ha.
  apply negb_true_iff in Ha.
  induction ws as [|c ws IH]; [reflexivity |]. cbn [forallb].
  rewrite andb_true_iff. intros [Hc Hws].
  change ((c :: ws) ++ u) with (c :: (ws ++ u)). cbn [contains startswith].
  rewrite (IH Hws).
  destruct (Ascii.eqb_spec a c) as [-> | _]; [congruence | reflexivity].
Qed.

Lemma keywords_end : forallb ends_nonspace sensational_words = true.
Proof. vm_compute. reflexivity. Qed.

Lemma padding_features (ws1 text ws2 : str) :
  forallb isspace_char ws1 = true -> forallb isspace_char ws2 = true ->
  sensational_count (ws1 ++ text ++ ws2) = sensational_count text
  /\ all_caps_words (ws1 ++ text ++ ws2) = all_caps_words text
  /\ word_count (ws1 ++ text ++ ws2) = word_count text.
Proof.
  intros H1 H2.
  assert (Hs : split (ws1 ++ text ++ ws2) = split text)
    by (rewrite (split_leading ws1 _ H1); apply (split_trailing text ws2 H2)).
  repeat split.
  - unfold sensational_count. rewrite !sum_ones_length. f_equal.
    apply filter_ext_in. intros kw Hin.
    unfold lower. rewrite !map_app. fold (lower ws1) (lower ws2) (lower text).
    rewrite (lower_space ws1 H1), (lower_space ws2 H2).
    pose proof keywords_start as K1. rewrite forallb_forall in K1.
    pose proof keywords_end as K2. rewrite forallb_forall in K2.
    rewrite (contains_leading kw ws1 _ (K1 kw Hin) H1).
    apply (contains_trailing kw (lower text) ws2 (K2 kw Hin) H2).
  - unfold all_caps_words. now rewrite Hs.
  - unfold word_count. now rewrite Hs.
Qed.

(** X7. Whitespace before and after a non-empty text does not change
    its verdict. *)
Theorem padding_invariance (ws1 text ws2 : str) :
  text <> [] ->
  forallb isspace_char ws1 = true -> forallb isspace_char ws2 = true ->
  detect_fake_news_mock (ws1 ++ text ++ ws2) = detect_fake_news_mock text.
Proof.
  intros Hne H1 H2.
  assert (Hne' : ws1 ++ text ++ ws2 <> []).
  { intros E. apply app_eq_nil in E. destruct E as [_ E].
    apply app_eq_nil in E. destruct E as [E _]. contradiction. }
  rewrite (detect_nonempty _ Hne'), (detect_nonempty _ Hne).
  destruct (padding_features ws1 text ws2 H1 H2) as [-> [-> ->]].
  reflexivity.
Qed.

Lemma padding_invariance_witness :
  detect_fake_news_mock (s "  " ++ s "Breaking now: a scandal" ++ s " ")
  = detect_fake_news_mock (s "Breaking now: a scandal").
Proof.
  apply (padding_invariance (s "  ") (s "Breaking now: a scandal") (s " "));
    [discriminate | reflexivity | reflexivity].
Defined.

End Padding.


(* ------------------------------------------------------------------ *)
(** * The result page *)

Section Pages.

Abbreviation good64 := (IEEE.good F64.prec F64.emax).
Abbreviation rank64 := (IEEE.rank F64.prec F64.emax).

(** The loop of [display_corrective_links] makes one item per link, in
    the order of the list. *)
Lemma link_items_from (links : list LinkRef) (html : list (str * str)) :
  fold_left (fun html link => html ++ [(url link, title link)]) links html
  = html ++ map (fun link => (url link, title link)) links.
Proof.
  revert html. induction links as [|l k IH]; intros html; cbn [fold_left map].
  - now rewrite app_nil_r.
  - rewrite IH, <- app_assoc. reflexivity.
Qed.

Lemma display_links_nonempty (l : LinkRef) (k : list LinkRef) :
  display_corrective_links (l :: k)
  = [LinksHeader; LinksIntro;
     LinksList (map (fun link => (url link, title link)) (l :: k))].
Proof.
  unfold display_corrective_links. cbv zeta. now rewrite link_items_from.
Qed.

Lemma progress_steps :
  map (fun i => ProgressSet (i + 1)) (map Z.of_nat (seq 0 100))
  = map ProgressSet (map Z.of_nat (seq 1 100)).
Proof. vm_compute. reflexivity. Qed.

(** The score of a non-empty text is a positive finite number between
    0.05 and 0.60. *)
Lemma score_range (text : str) :
  let p := clamp (pre_clamp (sensational_count text)
                    (F64.nearest_quotient (all_caps_words text)
                       (word_count text))
                    (word_count text)) in
  good64 p /\ is_finite p = true
  /\ rank64 (F64.decimal 5 2) <= rank64 p <= rank64 (F64.decimal 60 2).
Proof.
  intros p.
  destruct (pre_clamp_le (sensational_count text) 0
              (F64.nearest_quotient (all_caps_words text) (word_count text))
              (word_count text)
              ltac:(pose proof (sensational_count_range text); lia)
              ltac:(pose proof (sensational_count_range text); lia)
              (nearest_quotient_sign _ _)) as [Gz [Gb R]].
  destruct (clamp_rank _ Gz) as [Cz Ez]. destruct (clamp_rank _ Gb) as [Cb _].
  assert (G60 : good64 (F64.decimal 60 2)) by (split; reflexivity).
  pose proof (rank_le_leb _ _ Cz Cb (clamp_mono _ _ Gz Gb R)) as H1.
  pose proof (rank_le_leb _ _ Cb G60 (bound_any_length _)) as H2.
  fold p in Cz, Ez, H1.
  assert (Hlo : rank64 (F64.decimal 5 2) <= rank64 p) by (rewrite Ez; lia).
  assert (P5 : 0 < rank64 (F64.decimal 5 2)) by (vm_compute; reflexivity).
  assert (P6 : rank64 (F64.decimal 60 2) < cap F64.prec F64.emax)
    by (vm_compute; reflexivity).
  split; [exact Cz |]. split; [| lia].
  apply (rank_pos_finite F64.prec F64.emax p Cz). lia.
Qed.

(** The digits printed for a number are those of its value, taken in
    units of [2^emin], times 100 and rounded. *)
Lemma hundredths_rank (sx : bool) (m : positive) (e : Z) :
  good64 (S754_finite sx m e) ->
  hundredths m e = rne (100 * mag F64.prec F64.emax m e) 1074.
Proof.
  intros G. pose proof (good_finite_exp _ _ _ _ _ G) as He.
  change (emin F64.prec F64.emax) with (-1074) in He.
  unfold hundredths, mag. change (emin F64.prec F64.emax) with (-1074).
  destruct (Z.leb_spec 0 e) as [H | H].
  - replace (100 * (Z.pos m * 2 ^ (e - -1074)))
      with ((Z.pos m * 100 * 2 ^ e) * 2 ^ 1074).
    + change 1074 with (0 + 1074) at 2.
      rewrite (rne_scale (Z.pos m * 100 * 2 ^ e) 0 1074) by lia.
      now rewrite rne_zero_shift.
    + replace (e - -1074) with (e + 1074) by lia.
      rewrite Z.pow_add_r by lia. ring.
  - replace (100 * (Z.pos m * 2 ^ (e - -1074)))
      with ((Z.pos m * 100) * 2 ^ (e + 1074)).
    + replace 1074 with (- e + (e + 1074)) at 2 by lia.
      now rewrite (rne_scale (Z.pos m * 100) (- e) (e + 1074)) by lia.
    + replace (e - -1074) with (e + 1074) by lia. ring.
Qed.

(** What is printed for a number between two positive finite ones. *)
Lemma format_between (lo hi y : F64.float) :
  good64 lo -> good64 y -> good64 hi ->
  0 < rank64 lo -> rank64 hi < cap F64.prec F64.emax ->
  rank64 lo <= rank64 y <= rank64 hi ->
  exists N,
    format_2f y = fixed2 false N
    /\ rne (100 * rank64 lo) 1074 <= N <= rne (100 * rank64 hi) 1074.
Proof.
  intros Gl Gy Gh Pl Ph [H1 H2].
  assert (F : is_finite y = true)
    by (apply (rank_pos_finite F64.prec F64.emax y Gy); lia).
  destruct y as [| | |sx m e]; try discriminate.
  destruct sx.
  { exfalso. cbn [rank cond_Zopp] in H1.
    assert (0 < mag F64.prec F64.emax m e)
      by (unfold mag; apply Z.mul_pos_pos; [lia | apply Z.pow_pos_nonneg; [lia |]];
          pose proof (good_finite_exp _ _ _ _ _ Gy); lia).
    lia. }
  exists (hundredths m e). split; [reflexivity |].
  rewrite (hundredths_rank false m e Gy).
  cbn [rank cond_Zopp] in H1, H2.
  split; apply rne_mono; lia.
Qed.

(** Multiplying by 100 keeps a number between two positive ones between
    their products. *)
Lemma times_100_between (lo hi x : F64.float) :
  good64 lo -> is_finite lo = true ->
  good64 hi -> is_finite hi = true ->
  good64 x -> is_finite x = true ->
  rank64 lo <= rank64 x <= rank64 hi ->
  good64 (x * F64.of_int 100)%f64
  /\ rank64 (lo * F64.of_int 100)%f64 <= rank64 (x * F64.of_int 100)%f64
     <= rank64 (hi * F64.of_int 100)%f64.
Proof.
  intros Gl Fl Gh Fh Gx Fx [H1 H2].
  assert (Gc : good64 (F64.of_int 100)) by (split; reflexivity).
  assert (Pc : 0 < rank64 (F64.of_int 100)) by (vm_compute; reflexivity).
  destruct (SFmul_mono F64.prec F64.emax prec_pos prec_lt_emax
              (F64.of_int 100) lo x Gc eq_refl Pc Gl Fl Gx Fx H1)
    as [_ [G1 R1]].
  destruct (SFmul_mono F64.prec F64.emax prec_pos prec_lt_emax
              (F64.of_int 100) x hi Gc eq_refl Pc Gx Fx Gh Fh H2)
    as [_ [_ R2]].
  split; [exact G1 |]. split; assumption.
Qed.

(** X8. Analysing a non-empty text renders, in this order: the notice,
    the progress bar stepped from 1 to 100 and removed, the card, a
    rule, the links section, a rule and the details with the word
    count. The links section is there exactly when the card says FAKE
    NEWS, and then lists the three fixed links in their order; a card
    that says REAL NEWS is followed by no link. *)
Theorem analysis_renders (text : str) :
  text <> [] ->
  exists card shown,
    main_app_analysis true text
    = Ok ([InfoBox; ProgressNew 0]
          ++ map ProgressSet (map Z.of_nat (seq 1 100))
          ++ [ProgressEmpty; Card card; Rule] ++ shown
          ++ [Rule; Details (word_count text)])
    /\ ((card_label card = s "FAKE NEWS"
         /\ card_score_label card = s "Fakiness Score"
         /\ shown = [LinksHeader; LinksIntro;
                     LinksList (map (fun l => (url l, title l)) mock_links)])
        \/ (card_label card = s "REAL NEWS"
            /\ card_score_label card = s "Confidence Score"
            /\ shown = [])).
Proof.
  intros Hne. unfold main_app_analysis.
  assert (T : truthy text = true) by (destruct text; [congruence | reflexivity]).
  rewrite T. cbn [negb]. rewrite (detect_nonempty text Hne).
  cbv zeta. cbn [bind]. rewrite progress_steps.
  set (p := clamp _). unfold label_of.
  destruct (F64.leb (F64.decimal 5 1) p).
  - eexists. exists []. split; [reflexivity |]. right. repeat split.
  - eexists. eexists. split; [reflexivity |]. left. repeat split.
Qed.

Lemma analysis_renders_witness :
  exists card shown,
    main_app_analysis true fake_example
    = Ok ([InfoBox; ProgressNew 0]
          ++ map ProgressSet (map Z.of_nat (seq 1 100))
          ++ [ProgressEmpty; Card card; Rule] ++ shown
          ++ [Rule; Details (word_count fake_example)])
    /\ ((card_label card = s "FAKE NEWS"
         /\ card_score_label card = s "Fakiness Score"
         /\ shown = [LinksHeader; LinksIntro;
                     LinksList (map (fun l => (url l, title l)) mock_links)])
        \/ (card_label card = s "REAL NEWS"
            /\ card_score_label card = s "Confidence Score"
            /\ shown = [])).
Proof. apply (analysis_renders fake_example). discriminate. Defined.

(** X9. The number on the card of a non-empty text is never below
    50.00 and never above 95.00, whichever verdict the card shows; on a
    REAL NEWS card it is at most 60.00. [N] is the number in
    hundredths. *)
Theorem displayed_score_range (text : str) :
  text <> [] ->
  exists label p links card rest N,
    detect_fake_news_mock text = Ok (label, p, links)
    /\ display_result label p links = Card card :: rest
    /\ card_score_value card = fixed2 false N ++ s "%"
    /\ 5000 <= N <= 9500
    /\ (label = REAL -> N <= 6000).
Proof.
  intros Hne. rewrite (detect_nonempty text Hne).
  destruct (score_range text) as [Gp [Fp [Rlo Rhi]]].
  set (p := clamp _) in *.
  assert (G05 : good64 (F64.decimal 5 2)) by (split; reflexivity).
  assert (G50 : good64 (F64.decimal 5 1)) by (split; reflexivity).
  assert (G60 : good64 (F64.decimal 60 2)) by (split; reflexivity).
  assert (G1 : good64 (F64.of_int 1)) by (split; reflexivity).
  unfold label_of, display_result.
  destruct (F64.leb (F64.decimal 5 1) p) eqn:Hh.
  - pose proof (rank_le_leb _ _ G50 Gp Hh) as R5.
    destruct (times_100_between (F64.decimal 5 1) (F64.decimal 60 2) p
                G50 eq_refl G60 eq_refl Gp Fp (conj R5 Rhi)) as [Gy Ry].
    assert (Glo : good64 (F64.decimal 5 1 * F64.of_int 100)%f64)
      by (split; reflexivity).
    assert (Ghi : good64 (F64.decimal 60 2 * F64.of_int 100)%f64)
      by (split; reflexivity).
    assert (Plo : 0 < rank64 (F64.decimal 5 1 * F64.of_int 100)%f64)
      by (vm_compute; reflexivity).
    assert (Phi : rank64 (F64.decimal 60 2 * F64.of_int 100)%f64
                  < cap F64.prec F64.emax) by (vm_compute; reflexivity).
    destruct (format_between _ _ _ Glo Gy Ghi Plo Phi Ry) as [N [EN BN]].
    exists 1, p, []. do 2 eexists. exists N. split; [reflexivity |].
    split; [reflexivity |]. cbn [card_score_value Z.eqb Pos.eqb].
    split; [now rewrite EN |].
    assert (E1 : rne (100 * rank64 (F64.decimal 5 1 * F64.of_int 100)%f64) 1074
                 = 5000) by (vm_compute; reflexivity).
    assert (E2 : rne (100 * rank64 (F64.decimal 60 2 * F64.of_int 100)%f64) 1074
                 = 6000) by (vm_compute; reflexivity).
    lia.
  - assert (R5 : rank64 p <= rank64 (F64.decimal 5 1)).
    { rewrite (leb_rank G50 Gp) in Hh. apply Z.leb_gt in Hh. lia. }
    destruct (SFsub_antimono F64.prec F64.emax prec_pos prec_lt_emax
                (F64.of_int 1) (F64.decimal 5 2) p G1 eq_refl G05 eq_refl
                Gp Fp Rlo) as [_ [Gq Q1]].
    destruct (SFsub_antimono F64.prec F64.emax prec_pos prec_lt_emax
                (F64.of_int 1) p (F64.decimal 5 1) G1 eq_refl Gp Fp
                G50 eq_refl R5) as [_ [_ Q2]].
    fold F64.sub in Gq, Q1, Q2.
    assert (Fq : is_finite (F64.of_int 1 - p)%f64 = true).
    { apply (rank_pos_finite F64.prec F64.emax _ Gq). split.
      - eapply Z.lt_le_trans; [| exact Q2]. vm_compute. reflexivity.
      - eapply Z.le_lt_trans; [exact Q1 |]. vm_compute. reflexivity. }
    assert (Ga : good64 (F64.of_int 1 - F64.decimal 5 1)%f64)
      by (split; reflexivity).
    assert (Gb : good64 (F64.of_int 1 - F64.decimal 5 2)%f64)
      by (split; reflexivity).
    destruct (times_100_between (F64.of_int 1 - F64.decimal 5 1)%f64
                (F64.of_int 1 - F64.decimal 5 2)%f64
                (F64.of_int 1 - p)%f64 Ga eq_refl Gb eq_refl Gq Fq
                (conj Q2 Q1)) as [Gy Ry].
    assert (Glo : good64 ((F64.of_int 1 - F64.decimal 5 1)
                          * F64.of_int 100)%f64) by (split; reflexivity).
    assert (Ghi : good64 ((F64.of_int 1 - F64.decimal 5 2)
                          * F64.of_int 100)%f64) by (split; reflexivity).
    assert (Plo : 0 < rank64 ((F64.of_int 1 - F64.decimal 5 1)
                              * F64.of_int 100)%f64)
      by (vm_compute; reflexivity).
    assert (Phi : rank64 ((F64.of_int 1 - F64.decimal 5 2)
                          * F64.of_int 100)%f64
                  < cap F64.prec F64.emax) by (vm_compute; reflexivity).
    destruct (format_between _ _ _ Glo Gy Ghi Plo Phi Ry) as [N [EN BN]].
    exists 0, p, mock_links. do 2 eexists. exists N. split; [reflexivity |].
    split; [reflexivity |]. cbn [card_score_value Z.eqb].
    split; [cbv zeta; now rewrite EN |].
    assert (E1 : rne (100 * rank64 ((F64.of_int 1 - F64.decimal 5 1)
                                    * F64.of_int 100)%f64) 1074
                 = 5000) by (vm_compute; reflexivity).
    assert (E2 : rne (100 * rank64 ((F64.of_int 1 - F64.decimal 5 2)
                                    * F64.of_int 100)%f64) 1074
                 = 9500) by (vm_compute; reflexivity).
    split; [lia | discriminate].
Qed.

Lemma displayed_score_range_witness :
  exists label p links card rest N,
    detect_fake_news_mock real_example = Ok (label, p, links)
    /\ display_result label p links = Card card :: rest
    /\ card_score_value card = fixed2 false N ++ s "%"
    /\ 5000 <= N <= 9500
    /\ (label = REAL -> N <= 6000).
Proof. apply (displayed_score_range real_example). discriminate. Defined.

(** X10. A text box holding only whitespace is not rejected: the
    analysis runs and shows a FAKE NEWS card with a Fakiness Score of
    65.00%, the three links and a count of 0 words. The error box is
    shown for the empty text only. *)
Theorem whitespace_text_analysed (text : str) :
  text <> [] -> forallb isspace_char text = true ->
  exists card,
    main_app_analysis true text
    = Ok ([InfoBox; ProgressNew 0]
          ++ map ProgressSet (map Z.of_nat (seq 1 100))
          ++ [ProgressEmpty; Card card; Rule]
          ++ display_corrective_links mock_links
          ++ [Rule; Details 0])
    /\ card_label card = s "FAKE NEWS"
    /\ card_score_label card = s "Fakiness Score"
    /\ card_score_value card = s "65.00%".
Proof.
  intros Hne Hws. unfold main_app_analysis.
  assert (T : truthy text = true) by (destruct text; [congruence | reflexivity]).
  rewrite T. cbn [negb]. rewrite (detect_nonempty text Hne).
  destruct (whitespace_features text Hws) as [-> [-> Hw]].
  fold (word_count text). rewrite Hw.
  cbv zeta. cbn [bind]. rewrite progress_steps.
  eexists. split; [vm_compute; reflexivity |].
  repeat split.
Qed.

Lemma whitespace_text_analysed_witness :
  exists card,
    main_app_analysis true (s " ")
    = Ok ([InfoBox; ProgressNew 0]
          ++ map ProgressSet (map Z.of_nat (seq 1 100))
          ++ [ProgressEmpty; Card card; Rule]
          ++ display_corrective_links mock_links
          ++ [Rule; Details 0])
    /\ card_label card = s "FAKE NEWS"
    /\ card_score_label card = s "Fakiness Score"
    /\ card_score_value card = s "65.00%".
Proof.
  apply (whitespace_text_analysed (s " ")); [discriminate | reflexivity].
Defined.

End Pages.
